(** * libnih [main.c]: main loop, pid file and daemonisation

    A shallow embedding of [nih/main.c] and the properties of its main
    loop ([nih_main_loop] and friends), of the pid-file functions
    ([nih_main_get_pidfile], [nih_main_read_pidfile],
    [nih_main_write_pidfile], ...) and of [nih_main_daemonise].

    The C code works on file-static variables and on kernel objects (a
    pipe, the file system, processes).  The embedding threads them as an
    explicit state record, takes what the operating system decides (which
    system call fails, what [fork] returns, what the clock reads) as an
    explicit argument of each function, and records the system calls and
    the callbacks it makes in a trace. *)

From Stdlib Require Import ZArith String Ascii DecimalString DecimalPos.
From stdpp Require Import base option list gmap strings.

Local Open Scope string_scope.
Local Open Scope Z_scope.
Local Open Scope list_scope.

(** ** Outcome of a C function

    [nih_assert] aborts the process; [Undefined] stands for behaviour the
    C standard leaves undefined; a [while] loop of the source that is not
    bounded by its data is run with a step budget. *)

Inductive result (A : Type) : Type :=
| Ret (a : A)
| AssertFailed
| Undefined
| OutOfFuel.

Arguments Ret {A} a.
Arguments AssertFailed {A}.
Arguments Undefined {A}.
Arguments OutOfFuel {A}.

#[global] Instance result_ret : MRet result := fun A a => Ret a.

#[global] Instance result_bind : MBind result := fun A B f m =>
  match m with
  | Ret a => f a
  | AssertFailed => AssertFailed
  | Undefined => Undefined
  | OutOfFuel => OutOfFuel
  end.

(** [nih_assert (cond)] *)
Definition nih_assert (cond : bool) : result unit :=
  if cond then Ret tt else AssertFailed.

(** [int] and [pid_t] are 32-bit two's complement; [to_int n] is the
    [int] that has the low 32 bits of [n]. *)
Definition INT_MIN : Z := - 2 ^ 31.
Definition INT_MAX : Z := 2 ^ 31 - 1.

Definition to_int (n : Z) : Z := (n + 2 ^ 31) mod 2 ^ 32 - 2 ^ 31.

(** [long] is 64-bit two's complement. *)
Definition LONG_MIN : Z := - 2 ^ 63.
Definition LONG_MAX : Z := 2 ^ 63 - 1.

(** ** The pid file and daemonisation *)

Module Process.

(** [VAR_RUN]: directory to write pid files into. *)
Definition VAR_RUN : string := "/var/run".

(** [DEV_NULL]: device bound to stdin/out/err when daemonising. *)
Definition DEV_NULL : string := "/dev/null".

Definition SIGHUP : Z := 1.

(** System calls and library calls, as they appear in the trace. *)
Inductive Call : Type :=
| Umask (mask : Z)
| FopenR (path : string)
| FopenW (path : string)
| Fscanf
| Fprintf (text : string)
| Fflush
| Fsync
| Fclose
| Rename (from to : string)
| Unlink (path : string)
| Fork
| Exit (status : Z)
| Setsid
| SignalSetIgnore (signum : Z)
| ErrorGet
| Warn (errno : Z)
| Chdir (path : string)
| Close (fd : Z)
| Open (path : string)
| Dup (fd : Z).

(** The variables of [main.c] the pid-file functions use, and the part of
    the process and of the file system they act on.  [raised] is the error
    raised through [nih_error_raise_system] and not yet taken by the
    caller, identified by its [errno]. *)
Record State : Type := mkState {
  program_name : option string;
  pid_file : option string;
  files : gmap string string;
  mask : Z;
  raised : option Z;
  calls : list Call
}.

Definition set_pid_file (v : option string) (st : State) : State :=
  mkState (program_name st) v (files st) (mask st) (raised st) (calls st).

Definition set_files (v : gmap string string) (st : State) : State :=
  mkState (program_name st) (pid_file st) v (mask st) (raised st) (calls st).

Definition set_mask (v : Z) (st : State) : State :=
  mkState (program_name st) (pid_file st) (files st) v (raised st) (calls st).

Definition set_raised (v : option Z) (st : State) : State :=
  mkState (program_name st) (pid_file st) (files st) (mask st) v (calls st).

Definition log (c : Call) (st : State) : State :=
  mkState (program_name st) (pid_file st) (files st) (mask st) (raised st)
          (calls st ++ [c]).

(** [filename[0] == '/'] *)
Definition absolute (filename : string) : bool :=
  match filename with
  | String c _ => Ascii.eqb c "/"
  | EmptyString => false
  end.

(** [nih_main_set_pidfile (filename)]; [None] is [NULL]. *)
Definition nih_main_set_pidfile (filename : option string) (st : State)
  : result State :=
  let st := set_pid_file None st in
  match filename with
  | Some name =>
      _ ← nih_assert (absolute name);
      Ret (set_pid_file (Some name) st)
  | None => Ret st
  end.

(** [nih_main_get_pidfile ()].  [NIH_MUST] repeats an allocation until it
    succeeds; here and below the embedding takes the allocation that
    succeeds. *)
Definition nih_main_get_pidfile (st : State) : result (string * State) :=
  _ ← nih_assert (bool_decide (is_Some (program_name st)));
  match pid_file st with
  | Some name => Ret (name, st)
  | None =>
      let name := VAR_RUN +:+ "/" +:+ default "" (program_name st) +:+ ".pid" in
      Ret (name, set_pid_file (Some name) st)
  end.

(** *** [fscanf (pidfile, "%d", &pid)]

    The conversion skips white space, takes an optional sign and then the
    longest run of decimal digits, of which there must be one. *)

Definition isspace (c : ascii) : bool :=
  let n := nat_of_ascii c in
  (Nat.eqb n 32 || (Nat.leb 9 n && Nat.leb n 13))%bool.

Definition digit (c : ascii) : option Z :=
  let n := nat_of_ascii c in
  if (Nat.leb 48 n && Nat.leb n 57)%bool then Some (Z.of_nat n - 48) else None.

Fixpoint skip_space (s : string) : string :=
  match s with
  | String c rest => if isspace c then skip_space rest else s
  | EmptyString => s
  end.

Fixpoint scan_digits (s : string) (acc : option Z) : option Z :=
  match s with
  | String c rest =>
      match digit c with
      | Some d => scan_digits rest (Some (10 * default 0 acc + d))
      | None => acc
      end
  | EmptyString => acc
  end.

Definition scan_int (s : string) : option Z :=
  match skip_space s with
  | String c rest =>
      if Ascii.eqb c "-" then Z.opp <$> scan_digits rest None
      else if Ascii.eqb c "+" then scan_digits rest None
      else scan_digits (String c rest) None
  | EmptyString => None
  end.

(** The C library converts the digits as [strtol] does: a number outside
    [long] becomes the nearest bound of [long]. *)
Definition strtol_range (n : Z) : Z := Z.max LONG_MIN (Z.min LONG_MAX n).

(** [Some n]: one conversion was made ([fscanf] returns 1) and [n] was
    stored in the [pid_t], which keeps the low 32 bits of the [long];
    [None]: [fscanf] returns 0 or [EOF]. *)
Definition fscanf_d (content : string) : option Z :=
  (λ n, to_int (strtol_range n)) <$> scan_int content.

(** What the system answers to the calls made on a stream and to
    [unlink]: for each call the [errno] it fails with, or [None] when it
    succeeds. *)
Record Faults : Type := mkFaults {
  fopen_fault : option Z;
  fprintf_fault : option Z;
  fflush_fault : option Z;
  fsync_fault : option Z;
  fclose_fault : option Z;
  rename_fault : option Z;
  unlink_fault : option Z
}.

Definition no_faults : Faults :=
  mkFaults None None None None None None None.

(** [fopen (filename, "r")]: a file that does not exist cannot be
    opened. *)
Definition fopen_r (io : Faults) (filename : string) (st : State)
  : option string :=
  match fopen_fault io with
  | Some _ => None
  | None => files st !! filename
  end.

(** [nih_main_read_pidfile ()] *)
Definition nih_main_read_pidfile (io : Faults) (st : State)
  : result (Z * State) :=
  '(filename, st) ← nih_main_get_pidfile st;
  let st := log (FopenR filename) st in
  match fopen_r io filename st with
  | Some content =>
      let st := log Fscanf st in
      let pid := match fscanf_d content with
                 | Some n => n
                 | None => -1
                 end in
      Ret (pid, log Fclose st)
  | None => Ret (-1, st)
  end.

(** [strrchr (filename, '/')]: the text before the last slash and the text
    after it. *)
Fixpoint strrchr_slash (s : string) : option (string * string) :=
  match s with
  | EmptyString => None
  | String c rest =>
      match strrchr_slash rest with
      | Some (dir, base) => Some (String c dir, base)
      | None => if Ascii.eqb c "/" then Some ("", rest) else None
      end
  end.

Definition newline : string := String (ascii_of_nat 10) "".

(** The text [printf ("%d", n)] writes. *)
Definition decimal (n : Z) : string := NilZero.string_of_int (Z.to_int n).

(** [umask (m)] *)
Definition umask (m : Z) (st : State) : Z * State :=
  (mask st, log (Umask m) (set_mask m st)).

(** [unlink (path)], the result of which the callers ignore: when it
    fails with [fault] the file stays. *)
Definition unlink (fault : option Z) (path : string) (st : State) : State :=
  log (Unlink path)
      match fault with
      | Some _ => st
      | None => set_files (delete path (files st)) st
      end.

(** [nih_error_raise_system ()] after a call that failed with [errno]. *)
Definition nih_error_raise_system (errno : Z) (st : State) : State :=
  set_raised (Some errno) st.

(** A [FILE *] the process holds: [fclose] releases the stream whether
    or not it succeeds. *)
Inductive Stream : Type := Held | Released.

(** The four calls of the condition of [nih_main_write_pidfile], in the
    order [||] evaluates them: the [errno] of the first that fails, the
    stream and the state it leaves.  The text reaches the file when the
    stream is flushed. *)
Definition write_stream (io : Faults) (tmpname text : string) (st : State)
  : option Z * Stream * State :=
  let st := log (Fprintf text) st in
  match fprintf_fault io with
  | Some e => (Some e, Held, st)
  | None =>
      let st := log Fflush st in
      match fflush_fault io with
      | Some e => (Some e, Held, st)
      | None =>
          let st := set_files (<[tmpname := text]> (files st)) st in
          let st := log Fsync st in
          match fsync_fault io with
          | Some e => (Some e, Held, st)
          | None =>
              let st := log Fclose st in
              match fclose_fault io with
              | Some e => (Some e, Released, st)
              | None => (None, Released, st)
              end
          end
      end
  end.

(** [nih_main_write_pidfile (pid)].  A file name without a slash would
    make [ptr - filename] undefined; the names [nih_main_get_pidfile]
    returns are absolute.  When it is [fclose] that fails in the
    condition, the [fclose (pidfile)] of the error path is given a stream
    that is released already, which is undefined. *)
Definition nih_main_write_pidfile (io : Faults) (pid : Z) (st : State)
  : result (Z * State) :=
  _ ← nih_assert (bool_decide (pid > 0));
  '(filename, st) ← nih_main_get_pidfile st;
  match strrchr_slash filename with
  | None => Undefined
  | Some (dir, base) =>
      let tmpname := dir +:+ "/." +:+ base +:+ ".tmp" in
      let '(oldmask, st) := umask 18 st in
      '(ret, st) ←
        (let st := log (FopenW tmpname) st in
         match fopen_fault io with
         | Some e => Ret (-1, nih_error_raise_system e st)
         | None =>
             let st := set_files (<[tmpname := ""]> (files st)) st in
             match write_stream io tmpname (decimal pid +:+ newline) st with
             | (Some e, Held, st) =>
                 let st := nih_error_raise_system e st in
                 let st := log Fclose st in
                 Ret (-1, unlink (unlink_fault io) tmpname st)
             | (Some e, Released, st) => Undefined
             | (None, _, st) =>
                 let st := log (Rename tmpname filename) st in
                 match rename_fault io with
                 | Some e =>
                     let st := nih_error_raise_system e st in
                     Ret (-1, unlink (unlink_fault io) tmpname st)
                 | None =>
                     let fs := files st in
                     let fs := match fs !! tmpname with
                               | Some text => <[filename := text]> fs
                               | None => fs
                               end in
                     Ret (0, set_files (delete tmpname fs) st)
                 end
             end
         end);
      let '(_, st) := umask oldmask st in
      Ret (ret, st)
  end.

(** [nih_main_unlink_pidfile ()] *)
Definition nih_main_unlink_pidfile (io : Faults) (st : State)
  : result State :=
  '(filename, st) ← nih_main_get_pidfile st;
  Ret (unlink (unlink_fault io) filename st).

(** What the system answers during [nih_main_daemonise]: the value of
    each [fork] and its [errno] when it is negative, the descriptor [open]
    returns, and the value of the [n]-th call of [dup]. *)
Record System : Type := mkSystem {
  fork1 : Z;
  fork1_errno : Z;
  fork2 : Z;
  fork2_errno : Z;
  open_ret : Z;
  dup_ret : nat → Z
}.

(** How a call ends for the process that made it: it returns to its
    caller, or the process is gone through [exit]. *)
Inductive Ending : Type :=
| Returns (ret : Z)
| Exits (status : Z).

(** [while (dup (fd) < 0) ;] from the [n]-th call of [dup] on; returns
    the number of the next call. *)
Fixpoint dup_retry (fuel : nat) (os : System) (n : nat) (fd : Z) (st : State)
  : result (nat * State) :=
  match fuel with
  | O => OutOfFuel
  | S fuel =>
      let st := log (Dup fd) st in
      if dup_ret os n <? 0 then dup_retry fuel os (S n) fd st
      else Ret (S n, st)
  end.

(** [nih_main_daemonise ()] *)
Definition nih_main_daemonise (fuel : nat) (os : System) (io : Faults)
    (st : State) : result (Ending * State) :=
  _ ← nih_assert (bool_decide (is_Some (program_name st)));
  let st := log Fork st in
  if fork1 os <? 0 then
    Ret (Returns (-1), nih_error_raise_system (fork1_errno os) st)
  else if fork1 os >? 0 then
    Ret (Exits 0, log (Exit 0) st)
  else
    let st := log Setsid st in
    let st := log (SignalSetIgnore SIGHUP) st in
    let st := log Fork st in
    if fork2 os <? 0 then
      Ret (Returns (-1), nih_error_raise_system (fork2_errno os) st)
    else if fork2 os >? 0 then
      '(ret, st) ← nih_main_write_pidfile io (fork2 os) st;
      let st := if ret <? 0
                then let st := log ErrorGet st in
                     let st := log (Warn (default 0 (raised st))) st in
                     set_raised None st
                else st in
      Ret (Exits 0, log (Exit 0) st)
    else
      let st := log (Chdir "/") st in
      let '(_, st) := umask 0 st in
      let st := log (Close 2) (log (Close 1) (log (Close 0) st)) in
      let st := log (Open DEV_NULL) st in
      st ← (if open_ret os >=? 0
            then '(n, st) ← dup_retry fuel os 0 (open_ret os) st;
                 '(_, st) ← dup_retry fuel os n (open_ret os) st;
                 Ret st
            else Ret st);
      Ret (Returns 0, st).

(** *** Vocabulary of the properties *)

(** The path the pid-file functions work on in state [st]. *)
Definition location (st : State) : string :=
  match pid_file st with
  | Some name => name
  | None => VAR_RUN +:+ "/" +:+ default "" (program_name st) +:+ ".pid"
  end.

(** The name of the temporary file [nih_main_write_pidfile] writes to. *)
Definition temporary (filename : string) : string :=
  match strrchr_slash filename with
  | Some (dir, base) => dir +:+ "/." +:+ base +:+ ".tmp"
  | None => filename
  end.

(** The paths [nih_main_set_pidfile] lets through are absolute. *)
Definition absolute_pid_file (st : State) : Prop :=
  ∀ name, pid_file st = Some name → absolute name = true.

(** The first call of [nih_main_write_pidfile] that fails, in the order
    the calls are made. *)
Definition first_fault (io : Faults) : option Z :=
  let or_else (a b : option Z) := match a with Some e => Some e | None => b end in
  or_else (fopen_fault io)
    (or_else (fprintf_fault io)
       (or_else (fflush_fault io)
          (or_else (fsync_fault io)
             (or_else (fclose_fault io) (rename_fault io))))).

(** It is [fclose] that fails first: the stream is opened, written,
    flushed and synced, and the [fclose] of the condition fails, so that
    the error path closes the stream a second time. *)
Definition closes_twice (io : Faults) : bool :=
  match fopen_fault io, fprintf_fault io, fflush_fault io, fsync_fault io,
        fclose_fault io with
  | None, None, None, None, Some _ => true
  | _, _, _, _, _ => false
  end.

(** *** Sample processes *)

(** The state [nih_main_init] leaves in a program called [name], with an
    empty file system and the usual mask 022. *)
Definition init (name : string) : State :=
  mkState (Some name) None ∅ 18 None [].

(** A pid file that holds [text]. *)
Definition holding (text : string) : State :=
  set_files {[ "/var/run/upstart.pid" := text ]} (init "upstart").

(** A temporary file left by an earlier run, and a process that has no
    descriptor left: [fopen] fails with [EMFILE]. *)
Definition stale : State :=
  set_files {[ "/var/run/.upstart.pid.tmp" := "77" ]} (init "upstart").

Definition EMFILE : Z := 24.

Definition fopen_fails : Faults :=
  mkFaults (Some EMFILE) None None None None None None.

(** The disk is full when the stream is flushed ([ENOSPC]) and the
    directory can no longer be written to ([EACCES]); [fclose] fails with
    [EIO]. *)
Definition ENOSPC : Z := 28.
Definition EACCES : Z := 13.
Definition EIO : Z := 5.

Definition fflush_and_unlink_fail : Faults :=
  mkFaults None None (Some ENOSPC) None None None (Some EACCES).

Definition fclose_fails : Faults :=
  mkFaults None None None None (Some EIO) None None.

(** The first [fork] fails with [EAGAIN]. *)
Definition fork_fails : System := mkSystem (-1) 11 0 0 3 (λ _, 4).

(** *** Program and package names *)

(** The package variables of [main.c]; [None] is [NULL]. *)
Record Package : Type := mkPackage {
  package_name : option string;
  package_version : option string;
  package_copyright : option string;
  package_bugreport : option string;
  package_string : option string
}.

Definition set_program_name (v : option string) (st : State) : State :=
  mkState v (pid_file st) (files st) (mask st) (raised st) (calls st).

(** The name [nih_main_init_full] takes from [argv0]: what follows the
    last slash, or without a slash [argv0] less the dash of a login
    shell. *)
Definition basename (argv0 : string) : string :=
  match strrchr_slash argv0 with
  | Some (_, base) => base
  | None =>
      match argv0 with
      | String c rest => if Ascii.eqb c "-" then rest else argv0
      | EmptyString => argv0
      end
  end.

(** [bugreport && *bugreport] *)
Definition given (arg : option string) : bool :=
  match arg with
  | Some (String _ _) => true
  | _ => false
  end.

(** [nih_main_init_full (argv0, package, version, bugreport,
    copyright)] *)
Definition nih_main_init_full (argv0 package version bugreport
    copyright : option string) (pkg : Package) (st : State)
  : result (Package * State) :=
  _ ← nih_assert (bool_decide (is_Some argv0));
  _ ← nih_assert (bool_decide (is_Some package));
  _ ← nih_assert (bool_decide (is_Some version));
  let program := basename (default "" argv0) in
  let name := default "" package in
  let vers := default "" version in
  let text := if bool_decide (program ≠ name)
              then program +:+ " (" +:+ name +:+ " " +:+ vers +:+ ")"
              else name +:+ " " +:+ vers in
  Ret (mkPackage package version
         (if given copyright then copyright else package_copyright pkg)
         (if given bugreport then bugreport else package_bugreport pkg)
         (Some text),
       set_program_name (Some program) st).

(** A process before [nih_main_init_full]: every variable is [NULL]. *)
Definition unset : Package := mkPackage None None None None None.

(** *** Sequences of calls *)

(** The calls a program makes on its pid file. *)
Inductive PidCall : Type :=
| SetPidfile (filename : option string)
| GetPidfile
| ReadPidfile (io : Faults)
| WritePidfile (io : Faults) (pid : Z)
| UnlinkPidfile (io : Faults).

Definition run_call (c : PidCall) (st : State) : result State :=
  match c with
  | SetPidfile filename => nih_main_set_pidfile filename st
  | GetPidfile => '(_, st) ← nih_main_get_pidfile st; Ret st
  | ReadPidfile io => '(_, st) ← nih_main_read_pidfile io st; Ret st
  | WritePidfile io pid => '(_, st) ← nih_main_write_pidfile io pid st; Ret st
  | UnlinkPidfile io => nih_main_unlink_pidfile io st
  end.

Fixpoint run_calls (cs : list PidCall) (st : State) : result State :=
  match cs with
  | [] => Ret st
  | c :: cs => st ← run_call c st; run_calls cs st
  end.

(** The text after a number ends it. *)
Definition ends_number (rest : string) : Prop :=
  match rest with
  | String c _ => digit c = None
  | EmptyString => True
  end.

(** The number the digits [d] make when appended to the digits read so
    far. *)
Fixpoint uint_acc (d : Decimal.uint) (acc : option Z) : option Z :=
  let next k d := uint_acc d (Some (10 * default 0 acc + k)) in
  match d with
  | Decimal.Nil => acc
  | Decimal.D0 d => next 0 d
  | Decimal.D1 d => next 1 d
  | Decimal.D2 d => next 2 d
  | Decimal.D3 d => next 3 d
  | Decimal.D4 d => next 4 d
  | Decimal.D5 d => next 5 d
  | Decimal.D6 d => next 6 d
  | Decimal.D7 d => next 7 d
  | Decimal.D8 d => next 8 d
  | Decimal.D9 d => next 9 d
  end.

End Process.


(** ** The main loop *)

Module Loop.

(** [struct timeval] *)
Record timeval : Type := mkTimeval { tv_sec : Z; tv_usec : Z }.

#[local] Set Warnings "-register-all".

(** What a callback does to the main loop: the calls it makes into
    [main.c], and [nih_free] of a loop function.  A callback is the
    function the C code calls as [func->callback (func->data, func)]; the
    variables of [main.c] are [static], so the callback reaches them
    through these calls only.  [func] in [CallAddFunc] is what [nih_new]
    returns for the new structure, [None] when memory is short. *)
Inductive Op : Type :=
| CallExit (status : Z)
| CallInterrupt
| CallAddFunc (func : option nat) (callback : option (Z → nat → list Op))
              (data : Z)
| CallFree (func : nat).

Definition NihMainLoopCb : Type := Z → nat → list Op.

(** [NihMainLoopFunc]; [handle] is the address of the structure. *)
Record NihMainLoopFunc : Type := mkFunc {
  handle : nat;
  callback : NihMainLoopCb;
  data : Z
}.

(** What the loop does, in the order it does it. *)
Inductive Event : Type :=
| Pipe
| SetHandler
| ClockGettime
| Select (timeout : option timeval)
| IoHandleFds
| Read (ret : Z)
| SignalPoll
| ChildPoll
| TimerPoll
| Callback (func : nat) (data : Z)
| Write (ret : Z)
| ExitRequest (status : Z).

(** The interrupt pipe as the kernel holds it: the bytes written and not
    yet read, and the bytes it takes.  Both ends are non-blocking. *)
Record Pipe_buffer : Type := mkPipe { pending : nat; capacity : nat }.

(** The list of loop functions.  Outside [NIH_LIST_FOREACH_SAFE] only
    [passed ++ ahead] matters; inside it the two parts are the entries in
    front of the place the traversal holds and the entries behind it. *)
Record Registry : Type := mkRegistry {
  passed : list NihMainLoopFunc;
  ahead : list NihMainLoopFunc
}.

Definition entries (r : Registry) : list NihMainLoopFunc :=
  passed r ++ ahead r.

(** The variables of [main.c] the loop uses ([None] for the [NULL] list
    and for the pipe that is still [{ -1, -1 }]), the size the kernel
    gives a new pipe, and the trace. *)
Record State : Type := mkState {
  interrupt_pipe : option Pipe_buffer;
  exit_loop : Z;
  exit_status : Z;
  nih_main_loop_functions : option Registry;
  pipe_size : nat;
  trace : list Event
}.

Definition set_pipe (v : option Pipe_buffer) (st : State) : State :=
  mkState v (exit_loop st) (exit_status st) (nih_main_loop_functions st)
          (pipe_size st) (trace st).

Definition set_exit_loop (v : Z) (st : State) : State :=
  mkState (interrupt_pipe st) v (exit_status st) (nih_main_loop_functions st)
          (pipe_size st) (trace st).

Definition set_exit_status (v : Z) (st : State) : State :=
  mkState (interrupt_pipe st) (exit_loop st) v (nih_main_loop_functions st)
          (pipe_size st) (trace st).

Definition set_functions (v : option Registry) (st : State) : State :=
  mkState (interrupt_pipe st) (exit_loop st) (exit_status st) v
          (pipe_size st) (trace st).

Definition log (e : Event) (st : State) : State :=
  mkState (interrupt_pipe st) (exit_loop st) (exit_status st)
          (nih_main_loop_functions st) (pipe_size st) (trace st ++ [e]).

Definition registry (st : State) : Registry :=
  default (mkRegistry [] []) (nih_main_loop_functions st).

(** [nih_main_loop_init ()].  [NIH_MUST] and [NIH_ZERO] repeat the
    allocation of the list and the call of [pipe] until they succeed; the
    embedding takes the ones that succeed.  Both ends of the new pipe are
    made non-blocking and close-on-exec. *)
Definition nih_main_loop_init (st : State) : State :=
  let st := match nih_main_loop_functions st with
            | None => set_functions (Some (mkRegistry [] [])) st
            | Some _ => st
            end in
  match interrupt_pipe st with
  | None => log Pipe (set_pipe (Some (mkPipe 0 (pipe_size st))) st)
  | Some _ => st
  end.

(** [write (interrupt_pipe[1], "", 1)]: a full pipe answers [EAGAIN]. *)
Definition write_pipe (st : State) : Z * State :=
  match interrupt_pipe st with
  | Some p =>
      if (pending p <? capacity p)%nat
      then (1, log (Write 1)
                   (set_pipe (Some (mkPipe (S (pending p)) (capacity p))) st))
      else (-1, log (Write (-1)) st)
  | None => (-1, log (Write (-1)) st)
  end.

(** [while (write (interrupt_pipe[1], "", 1) < 0) ;] *)
Fixpoint write_retry (fuel : nat) (st : State) : result State :=
  match fuel with
  | O => OutOfFuel
  | S fuel =>
      let '(ret, st) := write_pipe st in
      if ret <? 0 then write_retry fuel st else Ret st
  end.

(** [nih_main_loop_interrupt ()] *)
Definition nih_main_loop_interrupt (fuel : nat) (st : State) : result State :=
  let st := nih_main_loop_init st in
  match interrupt_pipe st with
  | Some _ => write_retry fuel st
  | None => Ret st
  end.

(** [nih_main_loop_exit (status)] *)
Definition nih_main_loop_exit (fuel : nat) (status : Z) (st : State)
  : result State :=
  let st := log (ExitRequest status) st in
  let st := set_exit_status status st in
  let st := set_exit_loop 1 st in
  nih_main_loop_interrupt fuel st.

(** Modelled from the spec: [nih_list_add], which [nih/list.c] defines and
    [src/] does not hold; registration appends the entry to the ordered
    collection. *)
Definition nih_list_add (func : NihMainLoopFunc) (r : Registry) : Registry :=
  mkRegistry (passed r) (ahead r ++ [func]).

(** Modelled from the spec: the destructor [nih_list_destroy] that
    [nih_free] runs on a loop function ([nih/list.c] and [nih/alloc.c] are
    not under [src/]); releasing an entry removes it from the registry. *)
Definition nih_list_destroy (h : nat) (r : Registry) : Registry :=
  let keep := filter (λ f, handle f ≠ h) in
  mkRegistry (keep (passed r)) (keep (ahead r)).

(** [nih_main_loop_add_func (parent, callback, data)]; [func] is the
    result of [nih_new (parent, NihMainLoopFunc)]. *)
Definition nih_main_loop_add_func (func : option nat)
    (callback : option NihMainLoopCb) (data : Z) (st : State)
  : result (option nat * State) :=
  _ ← nih_assert (bool_decide (is_Some callback));
  let st := nih_main_loop_init st in
  match func, callback with
  | Some h, Some cb =>
      let r := nih_list_add (mkFunc h cb data) (registry st) in
      Ret (Some h, set_functions (Some r) st)
  | _, _ => Ret (None, st)
  end.

(** [nih_free (func)] on a loop function.  Freeing a structure a second
    time, or one that was never allocated, is undefined. *)
Definition nih_free (h : nat) (st : State) : result State :=
  match nih_main_loop_functions st with
  | Some r =>
      if bool_decide (h ∈ handle <$> entries r)
      then Ret (set_functions (Some (nih_list_destroy h r)) st)
      else Undefined
  | None => Undefined
  end.

Definition run_op (fuel : nat) (op : Op) (st : State) : result State :=
  match op with
  | CallExit status => nih_main_loop_exit fuel status st
  | CallInterrupt => nih_main_loop_interrupt fuel st
  | CallAddFunc func cb data =>
      '(_, st) ← nih_main_loop_add_func func cb data st; Ret st
  | CallFree h => nih_free h st
  end.

Fixpoint run_ops (fuel : nat) (ops : list Op) (st : State) : result State :=
  match ops with
  | [] => Ret st
  | op :: ops => st ← run_op fuel op st; run_ops fuel ops st
  end.

(** [while (read (interrupt_pipe[0], buf, sizeof (buf)) > 0) ;] reads the
    pending bytes one at a time; the read that finds the pipe empty
    answers [EAGAIN] and ends the loop. *)
Fixpoint read_all (n : nat) (st : State) : State :=
  match n with
  | O => log (Read (-1)) st
  | S n => read_all n (log (Read 1) st)
  end.

Definition drain (st : State) : State :=
  match interrupt_pipe st with
  | Some p => read_all (pending p) (set_pipe (Some (mkPipe 0 (capacity p))) st)
  | None => log (Read (-1)) st
  end.

(** Modelled from the spec: the macro [NIH_LIST_FOREACH_SAFE] of
    [nih/list.h], which is not under [src/].  Before it invokes an entry
    the traversal holds the place of the next one, so the callback may
    release its own entry or another one; an entry released before its
    turn is not invoked.  [passed] and [ahead] are the two sides of that
    place. *)
Fixpoint foreach_safe (fuel : nat) (st : State) : result State :=
  match fuel with
  | O => OutOfFuel
  | S fuel' =>
      match ahead (registry st) with
      | [] => Ret st
      | func :: rest =>
          let r := mkRegistry (passed (registry st) ++ [func]) rest in
          let st := set_functions (Some r) st in
          let st := log (Callback (handle func) (data func)) st in
          st ← run_ops fuel (callback func (data func) (handle func)) st;
          foreach_safe fuel' st
      end
  end.

(** The loop over [nih_main_loop_functions] in [nih_main_loop]. *)
Definition run_loop_functions (fuel : nat) (st : State) : result State :=
  let r := mkRegistry [] (entries (registry st)) in
  foreach_safe fuel (set_functions (Some r) st).

(** What the rest of the process and the system do during one iteration:
    the timer [nih_timer_next_due] finds, the seconds [clock_gettime]
    reads ([None] when it fails), what [select] returns, and the calls the
    handlers make that [nih_io_handle_fds], [nih_signal_poll],
    [nih_child_poll] and [nih_timer_poll] dispatch. *)
Record Wakeup : Type := mkWakeup {
  next_timer : option Z;
  clock : option Z;
  select_ret : Z;
  io_handlers : list Op;
  signal_handlers : list Op;
  child_handlers : list Op;
  timer_handlers : list Op
}.

(** The last argument of [select]: [timeout.tv_sec = next_timer->due -
    now.tv_sec] and [timeout.tv_usec = 0] when a timer is pending, [NULL]
    otherwise.  The times are [time_t] values of a running system, far
    from the bounds of the type. *)
Definition select_timeout (due : option Z) (now : Z) : option timeval :=
  match due with
  | Some due => Some (mkTimeval (due - now) 0)
  | None => None
  end.

(** The body of the [while] loop of [nih_main_loop].  The descriptor sets
    [nih_io_select_fds] fills are left out: what [select] finds in them is
    in [select_ret] and what the handlers of the descriptors do is in
    [io_handlers]. *)
Definition iteration (fuel : nat) (w : Wakeup) (st : State) : result State :=
  '(now, st) ← match next_timer w with
               | Some _ =>
                   _ ← nih_assert (bool_decide (is_Some (clock w)));
                   Ret (default 0 (clock w), log ClockGettime st)
               | None => Ret (0, st)
               end;
  let st := log (Select (select_timeout (next_timer w) now)) st in
  st ← (if select_ret w >? 0
        then run_ops fuel (io_handlers w) (log IoHandleFds st)
        else Ret st);
  let st := drain st in
  st ← run_ops fuel (signal_handlers w) (log SignalPoll st);
  st ← run_ops fuel (child_handlers w) (log ChildPoll st);
  st ← run_ops fuel (timer_handlers w) (log TimerPoll st);
  run_loop_functions fuel st.

(** [while (! exit_loop) { ... }]: one [Wakeup] for each iteration. *)
Fixpoint iterate (fuel : nat) (ws : list Wakeup) (st : State) : result State :=
  if decide (exit_loop st = 0) then
    match ws with
    | [] => OutOfFuel
    | w :: ws => st ← iteration fuel w st; iterate fuel ws st
    end
  else Ret st.

(** [nih_main_loop ()] *)
Definition nih_main_loop (fuel : nat) (ws : list Wakeup) (st : State)
  : result (Z * State) :=
  let st := nih_main_loop_init st in
  let st := log SetHandler st in
  st ← iterate fuel ws st;
  let st := set_exit_loop 0 st in
  Ret (exit_status st, st).

(** The state of a process that has not called into [main.c] yet; a new
    pipe takes [size] bytes. *)
Definition start (size : nat) : State := mkState None 0 0 None size [].

(** *** Vocabulary of the properties *)

(** Both the list of loop functions and the interrupt pipe exist. *)
Definition initialised (st : State) : Prop :=
  is_Some (interrupt_pipe st) ∧ is_Some (nih_main_loop_functions st).

(** The interrupt pipe holds as many bytes as it takes. *)
Definition pipe_full (st : State) : Prop :=
  ∃ p, interrupt_pipe st = Some p ∧ (capacity p ≤ pending p)%nat.

(** The state after [n] calls of [write] on the interrupt pipe. *)
Fixpoint attempts (n : nat) (st : State) : State :=
  match n with
  | O => st
  | S n => attempts n (snd (write_pipe st))
  end.

(** The events of the loop itself: the wait, the dispatch steps and the
    loop functions.  What a handler or a callback does inside a step (a
    request to exit, a write to the interrupt pipe) is not one. *)
Definition is_step (e : Event) : bool :=
  match e with
  | Select _ | IoHandleFds | Read _ | SignalPoll | ChildPoll | TimerPoll
  | Callback _ _ => true
  | Pipe | SetHandler | ClockGettime | Write _ | ExitRequest _ => false
  end.

Definition steps (l : list Event) : list Event := List.filter is_step l.

(** [st'] comes after [st] and the events between them are [l]. *)
Definition follows (st st' : State) (l : list Event) : Prop :=
  trace st' = trace st ++ l.

(** [st'] comes after [st] and no event of the loop itself lies between
    them. *)
Definition inside_step (st st' : State) : Prop :=
  ∃ l, follows st st' l ∧ steps l = [].

(** The timeout [select] is given in an iteration on [w]. *)
Definition waits_for (w : Wakeup) (timeout : option timeval) : Prop :=
  match next_timer w with
  | Some due =>
      ∃ now, clock w = Some now ∧ timeout = Some (mkTimeval (due - now) 0)
  | None => timeout = None
  end.

(** The steps of one iteration, in the order of the source. *)
Definition block (w : Wakeup) (timeout : option timeval) (bytes : nat)
    (invoked : list NihMainLoopFunc) : list Event :=
  [Select timeout]
  ++ (if select_ret w >? 0 then [IoHandleFds] else [])
  ++ replicate bytes (Read 1) ++ [Read (-1)]
  ++ [SignalPoll; ChildPoll; TimerPoll]
  ++ map (λ f, Callback (handle f) (data f)) invoked.

Definition dispatch_order (w : Wakeup) (l : list Event) : Prop :=
  ∃ timeout bytes invoked,
    waits_for w timeout ∧ l = block w timeout bytes invoked.

(** Running the iterations on [used] one after the other takes the loop
    from [st] to [st']: each of them starts with [exit_loop] clear and
    runs to its end. *)
Fixpoint reaches (fuel : nat) (used : list Wakeup) (st st' : State) : Prop :=
  match used with
  | [] => st' = st
  | w :: used =>
      exit_loop st = 0
      ∧ ∃ st1, iteration fuel w st = Ret st1 ∧ reaches fuel used st1 st'
  end.

(** The timeouts given to [select], in the order of the calls. *)
Definition selects (l : list Event) : list (option timeval) :=
  omap (λ e, match e with Select timeout => Some timeout | _ => None end) l.

(** The calls a callback makes ([func] is its own structure): it may ask
    the loop to exit, interrupt it and free its own structure, once. *)
Definition tame_op (func : nat) (op : Op) : Prop :=
  match op with
  | CallExit _ | CallInterrupt => True
  | CallFree h => h = func
  | CallAddFunc _ _ _ => False
  end.

Fixpoint frees_number (ops : list Op) : nat :=
  match ops with
  | [] => 0
  | CallFree _ :: ops => S (frees_number ops)
  | _ :: ops => frees_number ops
  end.

Definition tame (func : nat) (ops : list Op) : Prop :=
  Forall (tame_op func) ops ∧ (frees_number ops ≤ 1)%nat.

(** The calls a handler makes: it may ask the loop to exit and interrupt
    it. *)
Definition quiet_op (op : Op) : Prop :=
  match op with
  | CallExit _ | CallInterrupt => True
  | CallFree _ | CallAddFunc _ _ _ => False
  end.

Definition quiet (ops : list Op) : Prop := Forall quiet_op ops.

(** The calls of a loop function. *)
Definition script (f : NihMainLoopFunc) : list Op :=
  callback f (data f) (handle f).

(** The bytes [ops] write to the interrupt pipe. *)
Fixpoint writes (ops : list Op) : nat :=
  match ops with
  | [] => 0
  | (CallExit _ | CallInterrupt) :: ops => S (writes ops)
  | _ :: ops => writes ops
  end.

(** The status of the last request to exit among [ops]. *)
Fixpoint exit_request (ops : list Op) : option Z :=
  match ops with
  | [] => None
  | op :: ops =>
      match exit_request ops, op with
      | Some status, _ => Some status
      | None, CallExit status => Some status
      | None, _ => None
      end
  end.

(** Whether [ops] free a loop function. *)
Fixpoint frees (ops : list Op) : bool :=
  match ops with
  | [] => false
  | CallFree _ :: _ => true
  | _ :: ops => frees ops
  end.

(** What [ops] leave in the trace. *)
Fixpoint events (ops : list Op) : list Event :=
  match ops with
  | [] => []
  | CallExit status :: ops => ExitRequest status :: Write 1 :: events ops
  | CallInterrupt :: ops => Write 1 :: events ops
  | _ :: ops => events ops
  end.

(** The state [ops] lead to from a state with pipe [p] and registry [r],
    when they are tame for [func] and the pipe has room. *)
Definition after_ops (func : nat) (ops : list Op) (st : State)
    (p : Pipe_buffer) (r : Registry) : State :=
  mkState (Some (mkPipe (pending p + writes ops) (capacity p)))
          (match exit_request ops with Some _ => 1 | None => exit_loop st end)
          (default (exit_status st) (exit_request ops))
          (Some (if frees ops then nih_list_destroy func r else r))
          (pipe_size st)
          (trace st ++ events ops).

(** The calls of the loop functions [todo], one function after the
    other. *)
Fixpoint all_ops (todo : list NihMainLoopFunc) : list Op :=
  match todo with
  | [] => []
  | f :: todo => script f ++ all_ops todo
  end.

(** What a traversal of [todo] leaves in the trace. *)
Fixpoint pass_events (todo : list NihMainLoopFunc) : list Event :=
  match todo with
  | [] => []
  | f :: todo =>
      Callback (handle f) (data f) :: events (script f) ++ pass_events todo
  end.

(** The loop functions of [todo] that do not free themselves. *)
Fixpoint survivors (todo : list NihMainLoopFunc) : list NihMainLoopFunc :=
  match todo with
  | [] => []
  | f :: todo => if frees (script f) then survivors todo else f :: survivors todo
  end.

(** The state a traversal of [ahead r] leads to. *)
Definition after_pass (todo : list NihMainLoopFunc) (st : State)
    (p : Pipe_buffer) (r : Registry) : State :=
  mkState (Some (mkPipe (pending p + writes (all_ops todo)) (capacity p)))
          (match exit_request (all_ops todo) with
           | Some _ => 1
           | None => exit_loop st
           end)
          (default (exit_status st) (exit_request (all_ops todo)))
          (Some (mkRegistry (passed r ++ survivors todo) []))
          (pipe_size st)
          (trace st ++ pass_events todo).

(** Registration of the loop functions [regs], in this order; the
    structures are allocated at the addresses [handle]. *)
Fixpoint register (regs : list NihMainLoopFunc) (st : State) : result State :=
  match regs with
  | [] => Ret st
  | f :: regs =>
      '(_, st) ← nih_main_loop_add_func (Some (handle f)) (Some (callback f))
                   (data f) st;
      register regs st
  end.


(** The exit flag and the exit status. *)
Definition exit_state (st : State) : Z * Z := (exit_loop st, exit_status st).

(** The exit flag and the exit status [ops] leave. *)
Definition exit_after (ops : list Op) (e : Z * Z) : Z * Z :=
  match exit_request ops with
  | Some status => (1, status)
  | None => e
  end.

(** The calls the handlers of the ready descriptors make. *)
Definition io_ops (w : Wakeup) : list Op :=
  if select_ret w >? 0 then io_handlers w else [].

(** The calls made during an iteration on [w] with the loop functions
    [todo], in the order they are made. *)
Definition iteration_ops (w : Wakeup) (todo : list NihMainLoopFunc)
  : list Op :=
  io_ops w ++ signal_handlers w ++ child_handlers w ++ timer_handlers w
  ++ all_ops todo.

(** What an iteration on [w] leaves in the trace, when the pipe holds
    [bytes] bytes at its start and the loop functions are [todo]. *)
Definition iteration_events (w : Wakeup) (bytes : nat)
    (todo : list NihMainLoopFunc) : list Event :=
  match next_timer w with Some _ => [ClockGettime] | None => [] end
  ++ [Select (select_timeout (next_timer w) (default 0 (clock w)))]
  ++ (if select_ret w >? 0 then IoHandleFds :: events (io_handlers w) else [])
  ++ replicate (bytes + writes (io_ops w)) (Read 1) ++ [Read (-1)]
  ++ SignalPoll :: events (signal_handlers w)
  ++ ChildPoll :: events (child_handlers w)
  ++ TimerPoll :: events (timer_handlers w)
  ++ pass_events todo.

(** The clock can be read, the handlers only ask the loop to exit or
    interrupt it, and the loop functions [todo] are distinct structures
    whose callbacks leave the other loop functions alone. *)
Definition well_behaved (w : Wakeup) (todo : list NihMainLoopFunc) : Prop :=
  (is_Some (next_timer w) → is_Some (clock w))
  ∧ quiet (io_handlers w)
  ∧ quiet (signal_handlers w)
  ∧ quiet (child_handlers w)
  ∧ quiet (timer_handlers w)
  ∧ NoDup (handle <$> todo)
  ∧ Forall (λ f, tame (handle f) (script f)) todo.

(** *** Sample processes *)

(** The bytes Linux gives a new pipe: 65536. *)
Definition linux_pipe_size : nat := (2 ^ 16)%nat.

(** A process whose interrupt pipe is full. *)
Definition clogged : State :=
  mkState (Some (mkPipe linux_pipe_size linux_pipe_size)) 0 0
          (Some (mkRegistry [] [])) linux_pipe_size [].

(** Three callbacks: one does nothing, one frees its own structure, one
    asks the loop to exit with its data as status. *)
Definition quiet_cb : NihMainLoopCb := λ _ _, [].
Definition leaving_cb : NihMainLoopCb := λ _ func, [CallFree func].
Definition quitting_cb : NihMainLoopCb := λ status _, [CallExit status].



Definition three : list NihMainLoopFunc :=
  [mkFunc 10 leaving_cb 1; mkFunc 11 quitting_cb 7; mkFunc 12 quiet_cb 3].

Definition two : list NihMainLoopFunc :=
  [mkFunc 10 leaving_cb 1; mkFunc 12 quiet_cb 3].

(** The process after [nih_main_loop_add_func] on each of [regs]. *)
Definition registered (regs : list NihMainLoopFunc) : State :=
  mkState (Some (mkPipe 0 16)) 0 0 (Some (mkRegistry [] regs)) 16 [Pipe].

(** A wake-up while the next timer was due five seconds ago, at which
    [select] fails; one with a descriptor ready, whose handler interrupts
    the loop; one with nothing to do; and one by a signal whose handler
    asks the loop to exit. *)
Definition late : Wakeup := mkWakeup (Some 5) (Some 10) (-1) [] [] [] [].

Definition ready : Wakeup :=
  mkWakeup (Some 30) (Some 12) 1 [CallInterrupt] [] [] [].

Definition idle : Wakeup := mkWakeup None None 0 [] [] [] [].

Definition term : Wakeup :=
  mkWakeup (Some 30) (Some 12) (-1) [] [CallExit 3] [] [CallInterrupt].

(** The states [nih_main_loop] leaves when run on [late] and on [ready]
    with the loop functions [three]. *)
Definition finished_late : State :=
  mkState (Some (mkPipe 1 16)) 0 7
    (Some (mkRegistry [mkFunc 11 quitting_cb 7; mkFunc 12 quiet_cb 3] []))
    16
    [Pipe; SetHandler; ClockGettime; Select (Some (mkTimeval (-5) 0));
     Read (-1); SignalPoll; ChildPoll; TimerPoll; Callback 10 1;
     Callback 11 7; ExitRequest 7; Write 1; Callback 12 3].

Definition finished : State :=
  mkState (Some (mkPipe 1 16)) 0 7
    (Some (mkRegistry [mkFunc 11 quitting_cb 7; mkFunc 12 quiet_cb 3] []))
    16
    [Pipe; SetHandler; ClockGettime; Select (Some (mkTimeval 18 0));
     IoHandleFds; Write 1; Read 1; Read (-1); SignalPoll; ChildPoll;
     TimerPoll; Callback 10 1; Callback 11 7; ExitRequest 7; Write 1;
     Callback 12 3].

(** The same states at the end of the iteration, before [nih_main_loop]
    clears the exit flag. *)
Definition leaving_late : State := set_exit_loop 1 finished_late.


(** The state after one iteration on [idle] with the loop functions
    [two]. *)
Definition after_idle : State :=
  mkState (Some (mkPipe 0 16)) 0 0
    (Some (mkRegistry [mkFunc 12 quiet_cb 3] []))
    16
    [Pipe; SetHandler; Select None; Read (-1); SignalPoll; ChildPoll;
     TimerPoll; Callback 10 1; Callback 12 3].

(** A wake-up at which a child has ended; its handler frees the loop
    function at 10 and asks the loop to exit.  The state one iteration on
    it leaves, started after [nih_main_loop] has set up its handler in
    [registered two]. *)
Definition reaped : Wakeup :=
  mkWakeup None None 0 [] [] [CallFree 10; CallExit 4] [].

Definition set_up : State :=
  mkState (Some (mkPipe 0 16)) 0 0 (Some (mkRegistry [] two)) 16
    [Pipe; SetHandler].

Definition after_reaped : State :=
  mkState (Some (mkPipe 1 16)) 1 4
    (Some (mkRegistry [mkFunc 12 quiet_cb 3] []))
    16
    [Pipe; SetHandler; Select None; Read (-1); SignalPoll; ChildPoll;
     ExitRequest 4; Write 1; TimerPoll; Callback 12 3].

(** *** The requests to exit and the pipes of a run *)

(** The status of each request to exit, in the order of the requests. *)
Definition requests (l : list Event) : list Z :=
  omap (λ e, match e with ExitRequest status => Some status | _ => None end) l.

(** The exit flag and the exit status the events [l] leave. *)
Definition exit_track (l : list Event) (e : Z * Z) : Z * Z :=
  match last (requests l) with
  | Some status => (1, status)
  | None => e
  end.

(** The calls of [pipe] among the events [l]. *)
Definition pipes (l : list Event) : nat :=
  length (omap (λ e, match e with Pipe => Some () | _ => None end) l).

(** The interrupt pipes the process holds. *)
Definition created (st : State) : nat :=
  match interrupt_pipe st with
  | Some _ => 1
  | None => 0
  end.

(** [st'] comes after [st]; the exit flag and status are those of the
    last request to exit made in between, and the pipe was created by a
    call of [pipe] made in between if it was not there before. *)
Definition evolves (st st' : State) : Prop :=
  ∃ l, follows st st' l
       ∧ exit_state st' = exit_track l (exit_state st)
       ∧ created st' = (pipes l + created st)%nat.

(** The calls made after the interrupt pipe was read in an iteration on
    [w] with the loop functions [todo]. *)
Definition later_ops (w : Wakeup) (todo : list NihMainLoopFunc) : list Op :=
  signal_handlers w ++ child_handlers w ++ timer_handlers w ++ all_ops todo.

(** *** One iteration in full *)

(** The bytes the events [l] wrote to the interrupt pipe. *)
Definition written (l : list Event) : nat :=
  length (omap (λ e, match e with
                     | Write ret => if 0 <? ret then Some () else None
                     | _ => None
                     end) l).


(** [st'] comes after [st] within one step of the loop: the events [l]
    between them are no steps, and the pipe holds the bytes they wrote in
    addition. *)
Definition pumps (st st' : State) (l : list Event) : Prop :=
  follows st st' l
  ∧ steps l = []
  ∧ ∀ p, interrupt_pipe st = Some p →
      interrupt_pipe st'
      = Some (mkPipe (pending p + written l) (capacity p)).


End Loop.

(** * Properties *)

Lemma bind_Ret_inv {A B} (m : result A) (f : A → result B) (b : B) :
  m ≫= f = Ret b → ∃ a, m = Ret a ∧ f a = Ret b.
Proof. destruct m; simpl; intros H; try discriminate. eauto. Qed.

Lemma to_int_id n : INT_MIN ≤ n ≤ INT_MAX → to_int n = n.
Proof.
  unfold INT_MIN, INT_MAX, to_int. intros H.
  rewrite Z.mod_small; lia.
Qed.

Lemma length_append (s1 s2 : string) :
  String.length (s1 +:+ s2) = (String.length s1 + String.length s2)%nat.
Proof. induction s1 as [|c s1 IH]; simpl; [done|]. by rewrite IH. Qed.

(** ** The pid file *)

Module ProcessSpec.
Import Process.

Example write_then_read :
  ('(_, st) ← nih_main_write_pidfile no_faults 1234 (init "upstart");
   '(pid, st) ← nih_main_read_pidfile no_faults st;
   Ret (pid, files st !! "/var/run/upstart.pid",
        files st !! "/var/run/.upstart.pid.tmp"))
  = Ret (1234, Some ("1234" +:+ newline), None).
Proof. vm_compute. reflexivity. Qed.

(** What the calls that start with [nih_main_get_pidfile] do once
    [nih_main_init] has set the program name. *)
Section KnownName.

Variables (st : State) (prog : string).
Hypothesis Hprog : program_name st = Some prog.

Lemma get_pidfile_ret :
  nih_main_get_pidfile st
  = Ret (location st, set_pid_file (Some (location st)) st).
Proof.
  unfold nih_main_get_pidfile, location. rewrite Hprog. simpl.
  destruct (pid_file st) as [name|] eqn:E; [|done].
  do 2 f_equal. clear Hprog. destruct st; simpl in *; by subst.
Qed.

Lemma read_pidfile_ret (io : Faults) :
  nih_main_read_pidfile io st
  = let st1 := log (FopenR (location st))
                   (set_pid_file (Some (location st)) st) in
    match fopen_r io (location st) st with
    | Some content =>
        Ret (default (-1) (fscanf_d content), log Fclose (log Fscanf st1))
    | None => Ret (-1, st1)
    end.
Proof.
  unfold nih_main_read_pidfile. rewrite get_pidfile_ret. simpl.
  unfold fopen_r; simpl. destruct (fopen_fault io); [done|].
  destruct (files st !! location st) as [content|]; [|done].
  by destruct (fscanf_d content).
Qed.

End KnownName.

Lemma stored_id n : INT_MIN ≤ n ≤ INT_MAX → to_int (strtol_range n) = n.
Proof.
  intros H. unfold strtol_range, LONG_MIN, LONG_MAX.
  rewrite Z.min_r, Z.max_r by (unfold INT_MIN, INT_MAX in H; lia).
  by apply to_int_id.
Qed.

Lemma location_absolute st :
  absolute_pid_file st → absolute (location st) = true.
Proof.
  intros Habs. unfold location.
  destruct (pid_file st) as [name|] eqn:E; [by apply Habs | done].
Qed.

(** C7: [nih_main_set_pidfile] with a path that is not [NULL] and does not
    start with a slash fails its assertion; with [NULL] it clears the
    override, and the next [nih_main_get_pidfile] computes the absolute
    path [/var/run/<program_name>.pid], stores it in [pid_file] and
    returns the same path on later calls. *)
Theorem set_pidfile_contract (st : State) (name prog : string) :
  absolute name = false →
  program_name st = Some prog →
  nih_main_set_pidfile (Some name) st = AssertFailed
  ∧ ∃ st1 st2,
      let path := "/var/run/" +:+ prog +:+ ".pid" in
      nih_main_set_pidfile None st = Ret st1
      ∧ pid_file st1 = None
      ∧ nih_main_get_pidfile st1 = Ret (path, st2)
      ∧ absolute path = true
      ∧ pid_file st2 = Some path
      ∧ nih_main_get_pidfile st2 = Ret (path, st2).
Proof.
  intros Hrel Hprog. split.
  - unfold nih_main_set_pidfile. by rewrite Hrel.
  - eexists (set_pid_file None st), _. simpl. split; [done|].
    split; [done|].
    rewrite (get_pidfile_ret _ prog) by done.
    unfold location; simpl. rewrite Hprog; simpl.
    split; [reflexivity|]. split; [done|]. split; [done|].
    unfold nih_main_get_pidfile. simpl. by rewrite Hprog.
Qed.

Lemma set_pidfile_contract_witness :
  let st := init "upstart" in
  nih_main_set_pidfile (Some "relative/path") st = AssertFailed
  ∧ ∃ st1 st2,
      nih_main_set_pidfile None st = Ret st1
      ∧ pid_file st1 = None
      ∧ nih_main_get_pidfile st1 = Ret ("/var/run/upstart.pid", st2)
      ∧ absolute "/var/run/upstart.pid" = true
      ∧ pid_file st2 = Some "/var/run/upstart.pid"
      ∧ nih_main_get_pidfile st2 = Ret ("/var/run/upstart.pid", st2).
Proof.
  exact (set_pidfile_contract (init "upstart") "relative/path" "upstart"
           eq_refl eq_refl).
Defined.


(** C8: once the program name is known, [nih_main_read_pidfile] always
    returns, raises no error and leaves the files alone; when the pid file
    cannot be opened, and when its contents do not start with an integer,
    the value returned is the negative "no pid" value -1. *)
Theorem read_pidfile_never_fails (io : Faults) (st : State) (prog : string) :
  program_name st = Some prog →
  ∃ pid st',
    nih_main_read_pidfile io st = Ret (pid, st')
    ∧ raised st' = raised st
    ∧ files st' = files st
    ∧ (fopen_r io (location st) st = None → pid = -1 ∧ pid < 0)
    ∧ (∀ content, fopen_r io (location st) st = Some content →
         scan_int content = None → pid = -1 ∧ pid < 0).
Proof.
  intros Hprog. rewrite (read_pidfile_ret _ prog) by done. simpl.
  destruct (fopen_r io (location st) st) as [content|] eqn:Hopen.
  - eexists _, _. split; [done|]. do 2 (split; [done|]).
    split; [done|]. intros ? [= <-] Hscan.
    unfold fscanf_d. rewrite Hscan. simpl. lia.
  - eexists _, _. split; [done|]. do 2 (split; [done|]).
    split; [lia | done].
Qed.

Lemma read_pidfile_never_fails_witness :
  ∃ pid st',
    nih_main_read_pidfile no_faults (init "upstart") = Ret (pid, st')
    ∧ raised st' = None
    ∧ files st' = ∅
    ∧ (fopen_r no_faults "/var/run/upstart.pid" (init "upstart") = None →
       pid = -1 ∧ pid < 0)
    ∧ (∀ content,
         fopen_r no_faults "/var/run/upstart.pid" (init "upstart")
         = Some content →
         scan_int content = None → pid = -1 ∧ pid < 0).
Proof.
  exact (read_pidfile_never_fails no_faults (init "upstart") "upstart" eq_refl).
Defined.

(** C10: [nih_main_read_pidfile] returns the integer the pid file starts
    with as it is, whatever its sign: zero comes back as zero and a
    negative number as that negative number, although
    [nih_main_write_pidfile] asserts that the pid it is given is positive;
    and -1 is also what the call returns when the file cannot be opened,
    so a stored -1 and a missing file look the same to the caller. *)
Theorem read_pidfile_unvalidated (io : Faults) (st : State) (prog : string)
    (content : string) (n : Z) :
  program_name st = Some prog →
  fopen_r io (location st) st = Some content →
  scan_int content = Some n →
  INT_MIN ≤ n ≤ INT_MAX →
  (∃ st', nih_main_read_pidfile io st = Ret (n, st'))
  ∧ (n ≤ 0 → ∀ io', nih_main_write_pidfile io' n st = AssertFailed)
  ∧ (∀ io', is_Some (fopen_fault io') →
       ∃ st', nih_main_read_pidfile io' st = Ret (-1, st')).
Proof.
  intros Hprog Hopen Hscan Hrange. split; [|split].
  - rewrite (read_pidfile_ret _ prog) by done. simpl. rewrite Hopen.
    unfold fscanf_d. rewrite Hscan. simpl. rewrite stored_id by done. eauto.
  - intros Hn io'. unfold nih_main_write_pidfile.
    rewrite bool_decide_eq_false_2 by lia. done.
  - intros io' [e He]. rewrite (read_pidfile_ret _ prog) by done. simpl.
    unfold fopen_r. rewrite He. eauto.
Qed.

Lemma read_pidfile_unvalidated_witness :
  (∃ st', nih_main_read_pidfile no_faults (holding "0") = Ret (0, st'))
  ∧ (0 ≤ 0 →
     ∀ io', nih_main_write_pidfile io' 0 (holding "0") = AssertFailed)
  ∧ (∀ io', is_Some (fopen_fault io') →
       ∃ st', nih_main_read_pidfile io' (holding "0") = Ret (-1, st')).
Proof.
  apply (read_pidfile_unvalidated no_faults (holding "0") "upstart" "0" 0).
  - reflexivity.
  - reflexivity.
  - reflexivity.
  - unfold INT_MIN, INT_MAX. lia.
Defined.

Example read_pidfile_negative :
  ('(pid, _) ← nih_main_read_pidfile no_faults (holding " -42 pids"); Ret pid)
  = Ret (-42).
Proof. vm_compute. reflexivity. Qed.

Lemma strrchr_slash_absolute name :
  absolute name = true → is_Some (strrchr_slash name).
Proof.
  destruct name as [|c rest]; simpl; [done|]. intros Hc.
  destruct (strrchr_slash rest) as [[dir base]|]; [eauto|].
  rewrite Hc. eauto.
Qed.

Lemma strrchr_slash_split name dir base :
  strrchr_slash name = Some (dir, base) → name = dir +:+ "/" +:+ base.
Proof.
  revert dir base. induction name as [|c rest IH]; intros dir base; simpl; [done|].
  destruct (strrchr_slash rest) as [[dir' base']|].
  - intros [= <- <-]. change (String c rest = String c (dir' +:+ "/" +:+ base')).
    f_equal. by apply IH.
  - destruct (Ascii.eqb_spec c "/") as [->|]; [|done].
    by intros [= <- <-].
Qed.

Lemma temporary_differs name : absolute name = true → temporary name ≠ name.
Proof.
  intros Habs Heq. unfold temporary in Heq.
  destruct (strrchr_slash_absolute _ Habs) as [[dir base] Hsplit].
  rewrite Hsplit in Heq. apply strrchr_slash_split in Hsplit.
  apply (f_equal String.length) in Heq. rewrite Hsplit in Heq.
  rewrite !length_append in Heq. simpl in Heq. lia.
Qed.

(** The goals a failure after [fopen] leaves, but for the calls made. *)
Ltac failed :=
  simpl;
  rewrite ?lookup_delete_eq, ?lookup_insert_eq;
  rewrite ?lookup_delete_ne, ?lookup_insert_ne by done;
  rewrite ?lookup_insert_eq;
  (split; [done|]); (split; [done|]); (split; [done|]); (split; [done|]);
  (split; [|by eauto]).

(** C6, as the code has it: for a positive pid [nih_main_write_pidfile]
    writes the decimal text of the pid and a newline to [.<basename>.tmp]
    in the directory of the pid file, flushes, syncs and closes it and
    renames it onto the pid file, after which no temporary file is left.
    When [fopen], [fprintf], [fflush], [fsync] or [rename] fails the
    function returns -1 with the error of the first call that failed
    raised, and the pid file is as it was.  When it is [fopen] that fails,
    nothing is unlinked and the files are as they were; after the other
    failures [unlink] is called on the temporary file, which is gone then
    unless [unlink] fails too. *)
Theorem write_pidfile_publish (io : Faults) (pid : Z) (st : State)
    (prog : string) :
  pid > 0 →
  program_name st = Some prog →
  absolute_pid_file st →
  closes_twice io = false →
  let path := location st in
  let tmp := temporary path in
  let text := decimal pid +:+ newline in
  (∃ dir base, path = dir +:+ "/" +:+ base
               ∧ tmp = dir +:+ "/." +:+ base +:+ ".tmp")
  ∧ ∃ ret st',
      nih_main_write_pidfile io pid st = Ret (ret, st')
      ∧ mask st' = mask st
      ∧ match first_fault io with
        | None =>
            ret = 0
            ∧ raised st' = raised st
            ∧ files st' !! path = Some text
            ∧ files st' !! tmp = None
            ∧ calls st' = calls st ++
                [Umask 18; FopenW tmp; Fprintf text; Fflush; Fsync; Fclose;
                 Rename tmp path; Umask (mask st)]
        | Some e =>
            ret = -1
            ∧ raised st' = Some e
            ∧ files st' !! path = files st !! path
            ∧ match fopen_fault io with
              | None =>
                  (∃ mid, calls st' = calls st ++
                      [Umask 18; FopenW tmp] ++ mid
                      ++ [Unlink tmp; Umask (mask st)])
                  ∧ match unlink_fault io with
                    | None => files st' !! tmp = None
                    | Some _ => is_Some (files st' !! tmp)
                    end
              | Some _ =>
                  files st' = files st
                  ∧ calls st' = calls st ++
                      [Umask 18; FopenW tmp; Umask (mask st)]
              end
        end.
Proof.
  intros Hpid Hprog Habs Hclose path tmp text.
  pose proof (location_absolute _ Habs) as Hloc.
  pose proof (temporary_differs _ Hloc) as Hne.
  destruct (strrchr_slash_absolute _ Hloc) as [[dir base] Hsplit].
  fold path in Hsplit, Hne. fold tmp in Hne.
  assert (Htmp : tmp = dir +:+ "/." +:+ base +:+ ".tmp").
  { unfold tmp, temporary. by rewrite Hsplit. }
  split.
  { exists dir, base. split; [by apply strrchr_slash_split | done]. }
  unfold nih_main_write_pidfile.
  rewrite bool_decide_eq_true_2 by done. simpl.
  rewrite (get_pidfile_ret _ prog) by done. simpl.
  fold path. rewrite Hsplit. rewrite <- Htmp. fold text.
  unfold first_fault, write_stream.
  destruct io as [fo fp ff fs fc fr fu]; simpl. unfold closes_twice in Hclose.
  simpl in Hclose.
  destruct fo as [e|].
  { eexists _, _. split; [reflexivity|]. simpl.
    repeat split. by rewrite <- !app_assoc. }
  destruct fp as [e|].
  { destruct fu; (eexists _, _; split; [reflexivity|]); failed.
    all: exists [Fprintf text; Fclose]; by rewrite <- !app_assoc. }
  destruct ff as [e|].
  { destruct fu; (eexists _, _; split; [reflexivity|]); failed.
    all: exists [Fprintf text; Fflush; Fclose]; by rewrite <- !app_assoc. }
  destruct fs as [e|].
  { destruct fu; (eexists _, _; split; [reflexivity|]); failed.
    all: exists [Fprintf text; Fflush; Fsync; Fclose];
      by rewrite <- !app_assoc. }
  destruct fc as [e|]; [done|].
  destruct fr as [e|].
  { destruct fu; (eexists _, _; split; [reflexivity|]); failed.
    all: exists [Fprintf text; Fflush; Fsync; Fclose; Rename tmp path];
      by rewrite <- !app_assoc. }
  eexists _, _. split; [reflexivity|]. simpl.
  rewrite lookup_insert_eq. simpl.
  rewrite lookup_delete_eq, lookup_delete_ne, lookup_insert_eq by done.
  repeat split. by rewrite <- !app_assoc.
Qed.

Lemma write_pidfile_publish_witness :
  let st := init "upstart" in
  let path := "/var/run/upstart.pid" in
  let tmp := "/var/run/.upstart.pid.tmp" in
  let text := "1234" +:+ newline in
  ((∃ dir base, path = dir +:+ "/" +:+ base
                ∧ tmp = dir +:+ "/." +:+ base +:+ ".tmp")
   ∧ ∃ ret st',
       nih_main_write_pidfile no_faults 1234 st = Ret (ret, st')
       ∧ mask st' = mask st
       ∧ ret = 0
       ∧ raised st' = raised st
       ∧ files st' !! path = Some text
       ∧ files st' !! tmp = None
       ∧ calls st' = calls st ++
           [Umask 18; FopenW tmp; Fprintf text; Fflush; Fsync; Fclose;
            Rename tmp path; Umask (mask st)])
  ∧ ((∃ dir base, path = dir +:+ "/" +:+ base
                  ∧ tmp = dir +:+ "/." +:+ base +:+ ".tmp")
     ∧ ∃ ret st',
         nih_main_write_pidfile fflush_and_unlink_fail 1234 st = Ret (ret, st')
         ∧ mask st' = mask st
         ∧ ret = -1
         ∧ raised st' = Some ENOSPC
         ∧ files st' !! path = files st !! path
         ∧ (∃ mid, calls st' = calls st ++
               [Umask 18; FopenW tmp] ++ mid
               ++ [Unlink tmp; Umask (mask st)])
           ∧ is_Some (files st' !! tmp)).
Proof.
  assert (Habs : absolute_pid_file (init "upstart")) by (intros name [=]).
  split.
  - apply (write_pidfile_publish no_faults 1234 (init "upstart") "upstart");
      [lia | reflexivity | exact Habs | reflexivity].
  - apply (write_pidfile_publish fflush_and_unlink_fail 1234 (init "upstart")
             "upstart"); [lia | reflexivity | exact Habs | reflexivity].
Defined.

(** C6 as stated fails.  With an empty disk that is full when the stream
    is flushed and an [unlink] that fails, [nih_main_write_pidfile]
    returns -1 and the temporary file it created is still there; and when
    [fopen] fails it returns -1 with no call of [unlink], so that a
    temporary file left by an earlier run is still there. *)
Lemma write_pidfile_keeps_temporary :
  (∃ st',
     nih_main_write_pidfile fflush_and_unlink_fail 1234 (init "upstart")
     = Ret (-1, st')
     ∧ raised st' = Some ENOSPC
     ∧ files (init "upstart") !! "/var/run/.upstart.pid.tmp" = None
     ∧ is_Some (files st' !! "/var/run/.upstart.pid.tmp")
     ∧ calls st' = [Umask 18; FopenW "/var/run/.upstart.pid.tmp";
                    Fprintf ("1234" +:+ newline); Fflush; Fclose;
                    Unlink "/var/run/.upstart.pid.tmp"; Umask 18])
  ∧ (∃ st',
       nih_main_write_pidfile fopen_fails 1234 stale = Ret (-1, st')
       ∧ raised st' = Some EMFILE
       ∧ files st' !! "/var/run/.upstart.pid.tmp" = Some "77"
       ∧ calls st' = [Umask 18; FopenW "/var/run/.upstart.pid.tmp";
                      Umask 18]).
Proof.
  split; (eexists; split; [reflexivity|]); vm_compute; eauto 10.
Qed.

(** What [nih_main_daemonise] needs of [nih_main_write_pidfile]. *)
Lemma write_pidfile_returns (io : Faults) (pid : Z) (st : State)
    (prog : string) :
  pid > 0 →
  program_name st = Some prog →
  absolute_pid_file st →
  if closes_twice io then nih_main_write_pidfile io pid st = Undefined
  else
    ∃ ret st' more,
      nih_main_write_pidfile io pid st = Ret (ret, st')
      ∧ calls st' = calls st ++ more
      ∧ match first_fault io with
        | None => ret = 0 ∧ raised st' = raised st
        | Some e => ret = -1 ∧ raised st' = Some e
        end.
Proof.
  intros Hpid Hprog Habs.
  destruct (strrchr_slash_absolute _ (location_absolute _ Habs))
    as [[dir base] Hsplit].
  unfold nih_main_write_pidfile.
  rewrite bool_decide_eq_true_2 by done. simpl.
  rewrite (get_pidfile_ret _ prog) by done. simpl. rewrite Hsplit.
  unfold first_fault, write_stream, closes_twice.
  destruct io as [fo fp ff fs fc fr fu]; simpl.
  destruct fo; [|destruct fp; [|destruct ff; [|destruct fs;
    [|destruct fc; [done|destruct fr]]]]]; destruct fu;
    (eexists _, _, _; split; [reflexivity|]; simpl;
     split; [rewrite <- !app_assoc; reflexivity | done]).
Qed.

(** C9 fails on the code where [fclose] fails: in the intermediate
    process [nih_main_write_pidfile] then closes the stream a second time,
    which is undefined, and the process gets neither to the warning nor to
    its [exit].  Everywhere else the code does what the claim says: a
    [fork] that fails, the first or the second, makes the call raise the
    system error and return -1 at once in the process that called [fork],
    with none of the later steps done; the intermediate process exits with
    status 0 whether or not the pid file could be written, and warns when
    it could not; and the call returns 0 only where both [fork]s returned
    0, in the grandchild. *)
Theorem daemonise_outcomes (fuel : nat) (os : System) (io : Faults)
    (st : State) (prog : string) :
  program_name st = Some prog →
  absolute_pid_file st →
  (fork1 os < 0 →
     ∃ st', nih_main_daemonise fuel os io st = Ret (Returns (-1), st')
            ∧ raised st' = Some (fork1_errno os)
            ∧ calls st' = calls st ++ [Fork])
  ∧ (fork1 os = 0 → fork2 os < 0 →
     ∃ st', nih_main_daemonise fuel os io st = Ret (Returns (-1), st')
            ∧ raised st' = Some (fork2_errno os)
            ∧ calls st' = calls st
                ++ [Fork; Setsid; SignalSetIgnore SIGHUP; Fork])
  ∧ (fork1 os = 0 → fork2 os > 0 → closes_twice io = false →
     ∃ st' more,
       nih_main_daemonise fuel os io st = Ret (Exits 0, st')
       ∧ calls st' = calls st ++ more ++ [Exit 0]
       ∧ ∀ e, first_fault io = Some e →
           raised st' = None
           ∧ ∃ before, more = before ++ [ErrorGet; Warn e])
  ∧ (fork1 os = 0 → fork2 os > 0 → closes_twice io = true →
     nih_main_daemonise fuel os io st = Undefined)
  ∧ (∀ ret st', nih_main_daemonise fuel os io st = Ret (Returns ret, st') →
       ret = 0 → fork1 os = 0 ∧ fork2 os = 0)
  ∧ (fork1 os = 0 → fork2 os = 0 → (∀ n, 0 ≤ dup_ret os n) →
     (0 < fuel)%nat →
     ∃ st', nih_main_daemonise fuel os io st = Ret (Returns 0, st')).
Proof.
  intros Hprog Habs. unfold nih_main_daemonise. rewrite Hprog. simpl.
  split; [|split; [|split; [|split; [|split]]]].
  - intros H1. rewrite (proj2 (Z.ltb_lt _ _)) by done.
    eexists. split; [reflexivity|]. done.
  - intros H1 H2. rewrite H1. simpl.
    rewrite (proj2 (Z.ltb_lt _ _)) by done.
    eexists. split; [reflexivity|]. simpl. split; [done|].
    by rewrite <- !app_assoc.
  - intros H1 H2 Hclose. rewrite H1. simpl.
    rewrite (proj2 (Z.ltb_ge _ _)) by lia.
    rewrite (proj2 (Z.gtb_gt _ _)) by lia.
    set (st1 := log Fork _).
    assert (Hp : program_name st1 = Some prog) by exact Hprog.
    assert (Ha : absolute_pid_file st1) by exact Habs.
    pose proof (write_pidfile_returns io (fork2 os) st1 prog ltac:(lia) Hp Ha)
      as Hwrite.
    rewrite Hclose in Hwrite.
    destruct Hwrite as (ret & st2 & more & Hw & Hcalls & Hfault).
    rewrite Hw. simpl.
    assert (Hst1 : calls st1
                   = calls st ++ [Fork; Setsid; SignalSetIgnore SIGHUP; Fork]).
    { unfold st1. simpl. rewrite <- !app_assoc. reflexivity. }
    clearbody st1.
    destruct (first_fault io) as [e|].
    + destruct Hfault as [-> Hraised]. simpl.
      eexists _, ([Fork; Setsid; SignalSetIgnore SIGHUP; Fork] ++ more
                  ++ [ErrorGet; Warn e]).
      split; [reflexivity|]. simpl.
      rewrite Hcalls, Hraised, Hst1. simpl. split.
      * rewrite <- !app_assoc. simpl. reflexivity.
      * intros ? [= <-]. split; [reflexivity|].
        exists ([Fork; Setsid; SignalSetIgnore SIGHUP; Fork] ++ more).
        rewrite <- !app_assoc. reflexivity.
    + destruct Hfault as [-> Hraised]. simpl.
      eexists _, ([Fork; Setsid; SignalSetIgnore SIGHUP; Fork] ++ more).
      split; [reflexivity|]. simpl.
      rewrite Hcalls, Hst1. split; [|intros ? [=]].
      rewrite <- !app_assoc. simpl. reflexivity.
  - intros H1 H2 Hclose. rewrite H1. simpl.
    rewrite (proj2 (Z.ltb_ge _ _)) by lia.
    rewrite (proj2 (Z.gtb_gt _ _)) by lia.
    set (st1 := log Fork _).
    assert (Hp : program_name st1 = Some prog) by exact Hprog.
    assert (Ha : absolute_pid_file st1) by exact Habs.
    pose proof (write_pidfile_returns io (fork2 os) st1 prog ltac:(lia) Hp Ha)
      as Hwrite.
    rewrite Hclose in Hwrite. by rewrite Hwrite.
  - intros ret st' Hrun ->.
    destruct (Z.ltb_spec (fork1 os) 0); [by inversion Hrun|].
    destruct (Z.gtb_spec (fork1 os) 0); [by inversion Hrun|].
    destruct (Z.ltb_spec (fork2 os) 0); [by inversion Hrun|].
    destruct (Z.gtb_spec (fork2 os) 0); [|lia].
    apply bind_Ret_inv in Hrun as ([? ?] & _ & Hrun). by inversion Hrun.
  - intros H1 H2 Hdup Hfuel. rewrite H1, H2. simpl.
    destruct fuel as [|fuel]; [lia|].
    destruct (open_ret os >=? 0); [|eauto]. simpl.
    rewrite (proj2 (Z.ltb_ge (dup_ret os 0) 0)) by done. simpl.
    rewrite (proj2 (Z.ltb_ge (dup_ret os 1) 0)) by done. simpl. eauto.
Qed.

Lemma daemonise_outcomes_witness :
  let parent := mkSystem 0 0 4321 0 3 (λ _, 4) in
  let child_only := mkSystem 0 0 (-1) 12 3 (λ _, 4) in
  let grandchild := mkSystem 0 0 0 0 3 (λ _, 4) in
  (∃ st', nih_main_daemonise 1 fork_fails no_faults (init "upstart")
          = Ret (Returns (-1), st')
          ∧ raised st' = Some 11
          ∧ calls st' = [Fork])
  ∧ (∃ st', nih_main_daemonise 1 child_only no_faults (init "upstart")
            = Ret (Returns (-1), st')
            ∧ raised st' = Some 12
            ∧ calls st' = [Fork; Setsid; SignalSetIgnore SIGHUP; Fork])
  ∧ (∃ st' more,
       nih_main_daemonise 1 parent fopen_fails (init "upstart")
       = Ret (Exits 0, st')
       ∧ calls st' = more ++ [Exit 0]
       ∧ ∀ e, Some EMFILE = Some e →
           raised st' = None
           ∧ ∃ before, more = before ++ [ErrorGet; Warn e])
  ∧ nih_main_daemonise 1 parent fclose_fails (init "upstart") = Undefined
  ∧ (∃ st', nih_main_daemonise 1 grandchild no_faults (init "upstart")
            = Ret (Returns 0, st')).
Proof.
  intros parent child_only grandchild.
  assert (Habs : absolute_pid_file (init "upstart")) by (intros name [=]).
  split; [|split; [|split; [|split]]].
  - apply (daemonise_outcomes 1 fork_fails no_faults (init "upstart")
             "upstart" eq_refl Habs). reflexivity.
  - apply (daemonise_outcomes 1 child_only no_faults (init "upstart")
             "upstart" eq_refl Habs); reflexivity.
  - apply (daemonise_outcomes 1 parent fopen_fails (init "upstart")
             "upstart" eq_refl Habs); reflexivity.
  - apply (daemonise_outcomes 1 parent fclose_fails (init "upstart")
             "upstart" eq_refl Habs); reflexivity.
  - apply (daemonise_outcomes 1 grandchild no_faults (init "upstart")
             "upstart" eq_refl Habs); try reflexivity; simpl; lia.
Defined.

Example daemonise_intermediate :
  ('(ending, st) ← nih_main_daemonise 1 (mkSystem 0 0 4321 0 3 (λ _, 4))
                     fopen_fails (init "upstart");
   Ret (ending, calls st))
  = Ret (Exits 0,
         [Fork; Setsid; SignalSetIgnore 1; Fork; Umask 18;
          FopenW "/var/run/.upstart.pid.tmp"; Umask 18; ErrorGet; Warn 24;
          Exit 0]).
Proof. vm_compute. reflexivity. Qed.

Example daemonise_grandchild :
  ('(ending, st) ← nih_main_daemonise 2 (mkSystem 0 0 0 0 0
                       (λ n, if decide (n = 1%nat) then -1 else 1))
                     no_faults (init "upstart");
   Ret (ending, calls st))
  = Ret (Returns 0,
         [Fork; Setsid; SignalSetIgnore 1; Fork; Chdir "/"; Umask 0;
          Close 0; Close 1; Close 2; Open "/dev/null"; Dup 0; Dup 0; Dup 0]).
Proof. vm_compute. reflexivity. Qed.

(** *** What [fscanf] reads of what [fprintf] wrote *)

Lemma scan_digits_uint d rest acc :
  scan_digits (NilEmpty.string_of_uint d +:+ rest) acc
  = scan_digits rest (uint_acc d acc).
Proof.
  revert acc. induction d; intros acc; simpl; try done; by rewrite IHd.
Qed.

Lemma uint_acc_pos d p :
  uint_acc d (Some (Z.pos p)) = Some (Z.pos (Pos.of_uint_acc d p)).
Proof.
  revert p. induction d; intros p; simpl; try done;
    rewrite <- IHd; do 2 f_equal; lia.
Qed.

Lemma uint_acc_zero d :
  uint_acc d (Some 0) = Some (Z.of_N (Pos.of_uint d)).
Proof.
  induction d; simpl; try done;
    by (change (10 * 0 + _) with (Z.pos 1) || change (10 * 0 + _) with (Z.pos 2)
        || change (10 * 0 + _) with (Z.pos 3)
        || change (10 * 0 + _) with (Z.pos 4)
        || change (10 * 0 + _) with (Z.pos 5)
        || change (10 * 0 + _) with (Z.pos 6)
        || change (10 * 0 + _) with (Z.pos 7)
        || change (10 * 0 + _) with (Z.pos 8)
        || change (10 * 0 + _) with (Z.pos 9)); rewrite uint_acc_pos.
Qed.

Lemma uint_acc_start d :
  d ≠ Decimal.Nil → uint_acc d None = Some (Z.of_N (Pos.of_uint d)).
Proof.
  intros Hd. rewrite <- uint_acc_zero. by destruct d.
Qed.

Lemma scan_digits_end rest acc : ends_number rest → scan_digits rest acc = acc.
Proof. destruct rest as [|c rest]; simpl; [done|]. by intros ->. Qed.

Lemma scan_int_decimal (p : positive) (rest : string) :
  ends_number rest → scan_int (decimal (Z.pos p) +:+ rest) = Some (Z.pos p).
Proof.
  intros Hrest. unfold decimal. simpl.
  pose proof (DecimalPos.Unsigned.to_uint_nonnil p) as Hnil.
  pose proof (DecimalPos.Unsigned.of_to p) as Hback.
  assert (Hscan : scan_digits (NilEmpty.string_of_uint (Pos.to_uint p) +:+ rest)
                    None = Some (Z.pos p)).
  { rewrite scan_digits_uint, scan_digits_end by done.
    rewrite uint_acc_start by done. by rewrite Hback. }
  destruct (Pos.to_uint p); [done|..]; exact Hscan.
Qed.

(** *** The pid file among the other files *)

Lemma no_fault_closes_once io : first_fault io = None → closes_twice io = false.
Proof.
  unfold first_fault, closes_twice.
  by destruct (fopen_fault io), (fprintf_fault io), (fflush_fault io),
    (fsync_fault io), (fclose_fault io).
Qed.

Lemma write_pidfile_cases (io : Faults) (pid : Z) (st : State) (prog : string) :
  pid > 0 →
  program_name st = Some prog →
  absolute_pid_file st →
  if closes_twice io then nih_main_write_pidfile io pid st = Undefined
  else
    ∃ ret st',
      nih_main_write_pidfile io pid st = Ret (ret, st')
      ∧ program_name st' = Some prog
      ∧ pid_file st' = Some (location st)
      ∧ (∀ q, q ≠ location st → q ≠ temporary (location st) →
           files st' !! q = files st !! q)
      ∧ match first_fault io with
        | None => ret = 0 ∧ raised st' = raised st
                  ∧ files st' !! location st = Some (decimal pid +:+ newline)
        | Some e => ret = -1
                    ∧ files st' !! location st = files st !! location st
        end.
Proof.
  intros Hpid Hprog Habs.
  pose proof (location_absolute _ Habs) as Hloc.
  pose proof (temporary_differs _ Hloc) as Hne.
  destruct (strrchr_slash_absolute _ Hloc) as [[dir base] Hsplit].
  assert (Htmp : temporary (location st) = dir +:+ "/." +:+ base +:+ ".tmp").
  { unfold temporary. by rewrite Hsplit. }
  unfold nih_main_write_pidfile.
  rewrite bool_decide_eq_true_2 by done. simpl.
  rewrite (get_pidfile_ret _ prog) by done. simpl.
  rewrite Hsplit, <- Htmp.
  unfold first_fault, write_stream, closes_twice.
  destruct io as [fo fp ff fs fc fr fu]; simpl.
  destruct fo; [|destruct fp; [|destruct ff; [|destruct fs;
    [|destruct fc; [done|destruct fr]]]]]; destruct fu;
    (eexists _, _; split; [reflexivity|]; simpl;
     split; [done|]; split; [done|]; split;
     [intros q Hq1 Hq2;
      rewrite ?lookup_insert_eq; simpl;
      by rewrite ?lookup_delete_ne, ?lookup_insert_ne by done
     |try (split; [done|];
           by rewrite ?lookup_delete_ne, ?lookup_insert_ne by done)]).
  all: rewrite lookup_insert_eq; simpl.
  all: by rewrite lookup_delete_ne, lookup_insert_eq by done.
Qed.

Lemma write_pidfile_mask (io : Faults) (pid : Z) (st st' : State) (ret : Z) :
  absolute_pid_file st →
  nih_main_write_pidfile io pid st = Ret (ret, st') → mask st' = mask st.
Proof.
  intros Habs. unfold nih_main_write_pidfile.
  destruct (bool_decide (pid > 0)); [|done]. simpl.
  destruct (program_name st) as [prog|] eqn:Hprog;
    [|by unfold nih_main_get_pidfile; rewrite Hprog].
  rewrite (get_pidfile_ret _ prog) by done. simpl.
  destruct (strrchr_slash (location st)) as [[dir base]|]; [|done].
  unfold write_stream.
  destruct io as [fo fp ff fs fc fr fu]; simpl.
  destruct fo; [|destruct fp; [|destruct ff; [|destruct fs;
    [|destruct fc; [done|destruct fr]]]]]; by intros [= _ <-].
Qed.

Lemma location_cached st path :
  pid_file st = Some path → location st = path.
Proof. unfold location. by intros ->. Qed.

Lemma read_pidfile_written (io : Faults) (pid : Z) (st : State)
    (prog : string) :
  0 < pid ≤ INT_MAX →
  program_name st = Some prog →
  fopen_fault io = None →
  files st !! location st = Some (decimal pid +:+ newline) →
  ∃ st', nih_main_read_pidfile io st = Ret (pid, st').
Proof.
  intros [Hpos Hmax] Hprog Hio Hfile.
  rewrite (read_pidfile_ret st prog Hprog). simpl.
  unfold fopen_r. rewrite Hio, Hfile.
  unfold fscanf_d. destruct pid as [|p|p]; try lia.
  rewrite scan_int_decimal by done. simpl.
  rewrite stored_id by (unfold INT_MIN; lia). eauto.
Qed.

(** X1: a pid written by [nih_main_write_pidfile] with no call failing is
    the pid [nih_main_read_pidfile] then returns. *)
Theorem write_then_read_pidfile (io io' : Faults) (pid : Z) (st : State)
    (prog : string) :
  0 < pid ≤ INT_MAX →
  program_name st = Some prog →
  absolute_pid_file st →
  first_fault io = None →
  fopen_fault io' = None →
  ∃ st1 st2,
    nih_main_write_pidfile io pid st = Ret (0, st1)
    ∧ nih_main_read_pidfile io' st1 = Ret (pid, st2).
Proof.
  intros Hpid Hprog Habs Hio Hio'.
  pose proof (write_pidfile_cases io pid st prog ltac:(lia) Hprog Habs)
    as Hcases.
  rewrite (no_fault_closes_once io Hio) in Hcases.
  destruct Hcases as (ret & st1 & Hwrite & Hprog1 & Hpath & _ & Hok).
  rewrite Hio in Hok. destruct Hok as (-> & _ & Hfile).
  rewrite <- (location_cached _ _ Hpath) in Hfile.
  destruct (read_pidfile_written io' pid st1 prog Hpid Hprog1 Hio' Hfile)
    as [st2 Hread].
  by exists st1, st2.
Qed.

Lemma write_then_read_pidfile_witness :
  ∃ st1 st2,
    nih_main_write_pidfile no_faults 4321 (init "upstart") = Ret (0, st1)
    ∧ nih_main_read_pidfile no_faults st1 = Ret (4321, st2).
Proof.
  apply (write_then_read_pidfile no_faults no_faults 4321 (init "upstart")
           "upstart").
  - unfold INT_MAX. lia.
  - reflexivity.
  - intros name [=].
  - reflexivity.
  - reflexivity.
Defined.

(** X2: [nih_main_write_pidfile] has undefined behaviour when it is
    [fclose] that fails, the stream being closed a second time.  In every
    other case, whatever call fails, [unlink] included, it returns 0 or
    -1, -1 exactly when a call other than [unlink] failed, puts the mask
    back to what it was and changes no file but the pid file and its
    temporary file. *)
Theorem write_pidfile_leaves_other_files (io : Faults) (pid : Z) (st : State)
    (prog : string) :
  pid > 0 →
  program_name st = Some prog →
  absolute_pid_file st →
  if closes_twice io then nih_main_write_pidfile io pid st = Undefined
  else
    ∃ ret st',
      nih_main_write_pidfile io pid st = Ret (ret, st')
      ∧ ret = match first_fault io with Some _ => -1 | None => 0 end
      ∧ mask st' = mask st
      ∧ ∀ q, q ≠ location st → q ≠ temporary (location st) →
          files st' !! q = files st !! q.
Proof.
  intros Hpid Hprog Habs.
  pose proof (write_pidfile_cases io pid st prog Hpid Hprog Habs) as Hcases.
  destruct (closes_twice io); [done|].
  destruct Hcases as (ret & st' & Hwrite & _ & _ & Hframe & Hret).
  exists ret, st'. split; [done|].
  split; [destruct (first_fault io); by destruct Hret|].
  split; [by eapply write_pidfile_mask | done].
Qed.

Lemma write_pidfile_leaves_other_files_witness :
  (∃ ret st',
     nih_main_write_pidfile fflush_and_unlink_fail 7 stale = Ret (ret, st')
     ∧ ret = -1
     ∧ mask st' = mask stale
     ∧ ∀ q, q ≠ "/var/run/upstart.pid" → q ≠ "/var/run/.upstart.pid.tmp" →
         files st' !! q = files stale !! q)
  ∧ nih_main_write_pidfile fclose_fails 7 stale = Undefined.
Proof.
  assert (Habs : absolute_pid_file stale) by (intros name [=]).
  split.
  - exact (write_pidfile_leaves_other_files fflush_and_unlink_fail 7 stale
             "upstart" eq_refl eq_refl Habs).
  - exact (write_pidfile_leaves_other_files fclose_fails 7 stale
             "upstart" eq_refl eq_refl Habs).
Defined.

(** X3: [nih_main_write_pidfile] replaces the pid file in one step or
    not at all: when no call fails the pid file holds the new pid, and
    when [fopen], [fprintf], [fflush], [fsync] or [rename] fails, with
    [unlink] failing or not, the pid file is as it was before the
    call. *)
Theorem write_pidfile_all_or_nothing (io : Faults) (pid : Z) (st : State)
    (prog : string) :
  pid > 0 →
  program_name st = Some prog →
  absolute_pid_file st →
  closes_twice io = false →
  ∃ ret st',
    nih_main_write_pidfile io pid st = Ret (ret, st')
    ∧ files st' !! location st
      = match first_fault io with
        | None => Some (decimal pid +:+ newline)
        | Some _ => files st !! location st
        end.
Proof.
  intros Hpid Hprog Habs Hclose.
  pose proof (write_pidfile_cases io pid st prog Hpid Hprog Habs) as Hcases.
  rewrite Hclose in Hcases.
  destruct Hcases as (ret & st' & Hwrite & _ & _ & _ & Hret).
  exists ret, st'. split; [done|].
  destruct (first_fault io); [by destruct Hret | by destruct Hret as (_ & _ & ?)].
Qed.

Lemma write_pidfile_all_or_nothing_witness :
  ∃ ret st',
    nih_main_write_pidfile
      (mkFaults None None None None None (Some EACCES) (Some EACCES)) 900
      (holding "812") = Ret (ret, st')
    ∧ files st' !! "/var/run/upstart.pid"
      = files (holding "812") !! "/var/run/upstart.pid".
Proof.
  apply (write_pidfile_all_or_nothing
           (mkFaults None None None None None (Some EACCES) (Some EACCES))
           900 (holding "812") "upstart").
  - lia.
  - reflexivity.
  - intros name [=].
  - reflexivity.
Defined.

Lemma unlink_pidfile_ret (io : Faults) (st : State) (prog : string) :
  program_name st = Some prog →
  nih_main_unlink_pidfile io st
  = Ret (unlink (unlink_fault io) (location st)
           (set_pid_file (Some (location st)) st)).
Proof.
  intros Hprog. unfold nih_main_unlink_pidfile.
  by rewrite (get_pidfile_ret _ prog).
Qed.

(** X4: [nih_main_unlink_pidfile] raises no error, whether or not the pid
    file exists and whether or not [unlink] succeeds, and touches no other
    file.  When [unlink] succeeded, [nih_main_read_pidfile] returns -1
    afterwards; when it failed the files are as they were, and the pid
    file is read as before. *)
Theorem unlink_then_read_pidfile (io io' : Faults) (st : State)
    (prog : string) :
  program_name st = Some prog →
  ∃ st1,
    nih_main_unlink_pidfile io st = Ret st1
    ∧ raised st1 = raised st
    ∧ (∀ q, q ≠ location st → files st1 !! q = files st !! q)
    ∧ match unlink_fault io with
      | None => ∃ st2, nih_main_read_pidfile io' st1 = Ret (-1, st2)
      | Some _ =>
          files st1 = files st
          ∧ ∀ pid st2, nih_main_read_pidfile io' st = Ret (pid, st2) →
              ∃ st3, nih_main_read_pidfile io' st1 = Ret (pid, st3)
      end.
Proof.
  intros Hprog. rewrite (unlink_pidfile_ret io st prog Hprog).
  unfold unlink. destruct (unlink_fault io) as [e|].
  - set (st1 := log _ _).
    assert (Hprog1 : program_name st1 = Some prog) by exact Hprog.
    exists st1. split; [done|]. split; [done|]. split; [done|].
    split; [done|]. intros pid st2.
    rewrite (read_pidfile_ret st prog Hprog).
    rewrite (read_pidfile_ret st1 prog Hprog1). unfold fopen_r.
    change (location st1) with (location st).
    change (files st1) with (files st).
    destruct (fopen_fault io'); [intros [= <- _]; eauto|].
    destruct (files st !! location st); intros [= <- _]; eauto.
  - set (st1 := log _ _).
    assert (Hprog1 : program_name st1 = Some prog) by exact Hprog.
    exists st1. split; [done|]. split; [done|]. split.
    + intros q Hq. unfold st1; simpl. by rewrite lookup_delete_ne.
    + rewrite (read_pidfile_ret st1 prog Hprog1). unfold fopen_r.
      change (location st1) with (location st).
      unfold st1 at 1; simpl. rewrite lookup_delete_eq.
      destruct (fopen_fault io'); eauto.
Qed.

Lemma unlink_then_read_pidfile_witness :
  (∃ st1,
     nih_main_unlink_pidfile no_faults (holding "812") = Ret st1
     ∧ raised st1 = None
     ∧ (∀ q, q ≠ "/var/run/upstart.pid" →
          files st1 !! q = files (holding "812") !! q)
     ∧ ∃ st2, nih_main_read_pidfile no_faults st1 = Ret (-1, st2))
  ∧ (∃ st1,
       nih_main_unlink_pidfile fflush_and_unlink_fail (holding "812")
       = Ret st1
       ∧ raised st1 = None
       ∧ (∀ q, q ≠ "/var/run/upstart.pid" →
            files st1 !! q = files (holding "812") !! q)
       ∧ files st1 = files (holding "812")
         ∧ ∀ pid st2,
             nih_main_read_pidfile no_faults (holding "812") = Ret (pid, st2) →
             ∃ st3, nih_main_read_pidfile no_faults st1 = Ret (pid, st3)).
Proof.
  split.
  - exact (unlink_then_read_pidfile no_faults no_faults (holding "812")
             "upstart" eq_refl).
  - exact (unlink_then_read_pidfile fflush_and_unlink_fail no_faults
             (holding "812") "upstart" eq_refl).
Defined.

Lemma run_call_absolute (c : PidCall) (st st' : State) :
  absolute_pid_file st →
  run_call c st = Ret st' →
  absolute_pid_file st' ∧ program_name st' = program_name st.
Proof.
  intros Habs Hrun.
  assert (Hcached : ∀ st0 : State,
             pid_file st0 = Some (location st) → absolute_pid_file st0).
  { intros st0 Hst0 name. rewrite Hst0. intros [= <-].
    by apply location_absolute. }
  destruct c as [[name|]| |io|io pid|io]; simpl in Hrun.
  - unfold nih_main_set_pidfile in Hrun.
    destruct (absolute name) eqn:Hname; [|done].
    injection Hrun as <-. split; [|done]. by intros ? [= <-].
  - injection Hrun as <-. split; [|done]. by intros ? [=].
  - destruct (program_name st) as [prog|] eqn:Hprog;
      [|by unfold nih_main_get_pidfile in Hrun; rewrite Hprog in Hrun].
    rewrite (get_pidfile_ret st prog Hprog) in Hrun.
    injection Hrun as <-. split; [by apply Hcached | done].
  - destruct (program_name st) as [prog|] eqn:Hprog;
      [|by unfold nih_main_read_pidfile, nih_main_get_pidfile in Hrun;
           rewrite Hprog in Hrun].
    rewrite (read_pidfile_ret st prog Hprog) in Hrun.
    destruct (fopen_r io (location st) st); injection Hrun as <-;
      (split; [by apply Hcached | done]).
  - destruct (decide (pid > 0)) as [Hpid|Hpid];
      [|by unfold nih_main_write_pidfile in Hrun;
           rewrite bool_decide_eq_false_2 in Hrun].
    destruct (program_name st) as [prog|] eqn:Hprog;
      [|by unfold nih_main_write_pidfile, nih_main_get_pidfile in Hrun;
           rewrite (bool_decide_eq_true_2 (pid > 0)) in Hrun by done;
           rewrite Hprog in Hrun].
    pose proof (write_pidfile_cases io pid st prog Hpid Hprog Habs) as Hcases.
    destruct (closes_twice io); [by rewrite Hcases in Hrun|].
    destruct Hcases as (ret & st1 & Hwrite & Hprog1 & Hpath & _).
    rewrite Hwrite in Hrun. injection Hrun as <-.
    split; [by apply Hcached | done].
  - destruct (program_name st) as [prog|] eqn:Hprog;
      [|by unfold nih_main_unlink_pidfile, nih_main_get_pidfile in Hrun;
           rewrite Hprog in Hrun].
    rewrite (unlink_pidfile_ret io st prog Hprog) in Hrun.
    injection Hrun as <-. unfold unlink.
    destruct (unlink_fault io); (split; [by apply Hcached | done]).
Qed.

(** X5: whatever calls a program has made on its pid file, the path
    [nih_main_get_pidfile] returns is absolute. *)
Theorem get_pidfile_always_absolute (cs : list PidCall) (st st' : State)
    (prog : string) :
  program_name st = Some prog →
  absolute_pid_file st →
  run_calls cs st = Ret st' →
  ∃ path st'',
    nih_main_get_pidfile st' = Ret (path, st'') ∧ absolute path = true.
Proof.
  intros Hprog Habs Hrun.
  assert (Hinv : absolute_pid_file st' ∧ program_name st' = Some prog).
  { revert st Hprog Habs Hrun.
    induction cs as [|c cs IH]; intros st Hprog Habs Hrun; simpl in Hrun.
    - by injection Hrun as <-.
    - apply bind_Ret_inv in Hrun as (st1 & Hcall & Hrun).
      destruct (run_call_absolute c st st1 Habs Hcall) as [Habs1 Hprog1].
      apply (IH st1); [congruence | done | done]. }
  destruct Hinv as [Habs' Hprog'].
  rewrite (get_pidfile_ret st' prog Hprog').
  eexists _, _. split; [reflexivity|]. by apply location_absolute.
Qed.

Lemma get_pidfile_always_absolute_witness :
  ∃ path st'',
    nih_main_get_pidfile
      (set_pid_file (Some "/run/init.pid")
         (log (Unlink "/var/run/upstart.pid")
            (set_files ∅ (set_pid_file (Some "/var/run/upstart.pid")
                            (holding "812")))))
    = Ret (path, st'') ∧ absolute path = true.
Proof.
  apply (get_pidfile_always_absolute
           [UnlinkPidfile no_faults; SetPidfile (Some "/run/init.pid")]
           (holding "812") _ "upstart").
  - reflexivity.
  - intros name [=].
  - vm_compute. reflexivity.
Defined.

(** *** The processes of [nih_main_daemonise] *)

Lemma dup_retry_spins (fuel : nat) (os : System) (n : nat) (fd : Z)
    (st : State) :
  (∀ i, dup_ret os i < 0) → dup_retry fuel os n fd st = OutOfFuel.
Proof.
  intros Hdup. revert n st.
  induction fuel as [|fuel IH]; intros n st; simpl; [done|].
  by rewrite (proj2 (Z.ltb_lt _ _)) by done.
Qed.

Lemma dup_retry_succeeds (fuel : nat) (os : System) (n a : nat) (fd : Z)
    (st : State) :
  (n ≤ a < n + fuel)%nat →
  (∀ i, (n ≤ i < a)%nat → dup_ret os i < 0) →
  0 ≤ dup_ret os a →
  dup_retry fuel os n fd st
  = Ret (S a, Nat.iter (S a - n) (log (Dup fd)) st).
Proof.
  revert n st.
  induction fuel as [|fuel IH]; intros n st Hn Hfail Hok; [lia|].
  simpl. destruct (decide (n = a)) as [->|Hne].
  - rewrite (proj2 (Z.ltb_ge _ _)) by done.
    by replace (S a - a)%nat with 1%nat by lia.
  - rewrite (proj2 (Z.ltb_lt _ _)) by (apply Hfail; lia).
    rewrite IH; [|lia|intros; apply Hfail; lia|done].
    replace (S a - n)%nat with (S (S a - S n)) by lia.
    by rewrite Nat.iter_succ_r.
Qed.

Lemma dups_logged (k : nat) (fd : Z) (st : State) :
  let st' := Nat.iter k (log (Dup fd)) st in
  calls st' = calls st ++ replicate k (Dup fd)
  ∧ files st' = files st ∧ mask st' = mask st ∧ raised st' = raised st.
Proof.
  induction k as [|k IH]; simpl.
  - by rewrite app_nil_r.
  - destruct IH as (-> & -> & -> & ->). split; [|done].
    rewrite <- app_assoc. f_equal. symmetry. apply replicate_cons_app.
Qed.

Lemma dup_retry_files (fuel : nat) (os : System) (n m : nat) (fd : Z)
    (st st' : State) :
  dup_retry fuel os n fd st = Ret (m, st') → files st' = files st.
Proof.
  revert n st. induction fuel as [|fuel IH]; intros n st; simpl; [done|].
  destruct (dup_ret os n <? 0).
  - intros Hrun. by rewrite (IH _ _ Hrun).
  - by intros [= _ <-].
Qed.

(** X6: the grandchild of [nih_main_daemonise] changes to the root
    directory, clears the mask, closes the three standard descriptors and
    opens [/dev/null]; it then calls [dup] until [dup] has succeeded twice,
    whatever the number of failures, and returns 0 with no file changed
    and no error raised. *)
Theorem daemonise_grandchild_dups (fuel : nat) (os : System) (io : Faults)
    (st : State) (prog : string) (a b : nat) :
  program_name st = Some prog →
  fork1 os = 0 → fork2 os = 0 → 0 ≤ open_ret os →
  (a < b < fuel)%nat →
  (∀ i, (i < b)%nat → i ≠ a → dup_ret os i < 0) →
  0 ≤ dup_ret os a → 0 ≤ dup_ret os b →
  ∃ st',
    nih_main_daemonise fuel os io st = Ret (Returns 0, st')
    ∧ calls st' = calls st
        ++ [Fork; Setsid; SignalSetIgnore SIGHUP; Fork; Chdir "/"; Umask 0;
            Close 0; Close 1; Close 2; Open DEV_NULL]
        ++ replicate (S b) (Dup (open_ret os))
    ∧ mask st' = 0 ∧ files st' = files st ∧ raised st' = raised st.
Proof.
  intros Hprog H1 H2 Hopen Hab Hfail Ha Hb.
  unfold nih_main_daemonise. rewrite Hprog, H1, H2. simpl.
  rewrite (proj2 (Z.geb_le _ _)) by lia.
  rewrite (dup_retry_succeeds fuel os 0 a); [|lia|intros; apply Hfail; lia|done].
  simpl.
  rewrite (dup_retry_succeeds fuel os (S a) b);
    [|lia|intros; apply Hfail; lia|done].
  simpl. eexists. split; [reflexivity|].
  pose (st0 := log (Open DEV_NULL) (log (Close 2) (log (Close 1)
    (log (Close 0) (log (Umask 0) (set_mask 0 (log (Chdir "/") (log Fork
    (log (SignalSetIgnore SIGHUP) (log Setsid (log Fork st))))))))))).
  pose (st1 := Nat.iter (S a) (log (Dup (open_ret os))) st0).
  match goal with
  | |- calls ?X = _ ∧ _ =>
      change X with (Nat.iter (b - a) (log (Dup (open_ret os))) st1)
  end.
  destruct (dups_logged (b - a) (open_ret os) st1) as (-> & -> & -> & ->).
  destruct (dups_logged (S a) (open_ret os) st0) as (Hc & Hf & Hm & Hr).
  fold st1 in Hc, Hf, Hm, Hr. rewrite Hc, Hf, Hm, Hr. unfold st0. simpl.
  split; [|done]. rewrite <- !app_assoc. simpl. do 12 f_equal.
  rewrite <- replicate_add. f_equal. lia.
Qed.

Lemma daemonise_grandchild_dups_witness :
  ∃ st',
    nih_main_daemonise 3 (mkSystem 0 0 0 0 3 (λ n, if (n =? 1)%nat then -1 else 4))
      no_faults (init "upstart") = Ret (Returns 0, st')
    ∧ calls st' = calls (init "upstart")
        ++ [Fork; Setsid; SignalSetIgnore SIGHUP; Fork; Chdir "/"; Umask 0;
            Close 0; Close 1; Close 2; Open DEV_NULL]
        ++ replicate 3 (Dup 3)
    ∧ mask st' = 0 ∧ files st' = files (init "upstart")
    ∧ raised st' = raised (init "upstart").
Proof.
  apply (daemonise_grandchild_dups 3
           (mkSystem 0 0 0 0 3 (λ n, if (n =? 1)%nat then -1 else 4))
           no_faults (init "upstart") "upstart" 0 2); simpl; try done; try lia.
  intros [|[|i]] Hi Hne; simpl; lia.
Defined.

(** X7: when [open] has succeeded and every [dup] fails, the grandchild
    of [nih_main_daemonise] repeats [dup] without end: no number of steps
    lets the call return. *)
Theorem daemonise_dup_never_gives_up (fuel : nat) (os : System) (io : Faults)
    (st : State) (prog : string) :
  program_name st = Some prog →
  fork1 os = 0 → fork2 os = 0 → 0 ≤ open_ret os →
  (∀ i, dup_ret os i < 0) →
  nih_main_daemonise fuel os io st = OutOfFuel.
Proof.
  intros Hprog H1 H2 Hopen Hdup.
  unfold nih_main_daemonise. rewrite Hprog, H1, H2. simpl.
  rewrite (proj2 (Z.geb_le _ _)) by lia.
  by rewrite dup_retry_spins.
Qed.

Lemma daemonise_dup_never_gives_up_witness :
  nih_main_daemonise 1000 (mkSystem 0 0 0 0 3 (λ _, -1)) no_faults
    (init "upstart") = OutOfFuel.
Proof.
  apply (daemonise_dup_never_gives_up 1000 (mkSystem 0 0 0 0 3 (λ _, -1))
           no_faults (init "upstart") "upstart"); simpl; try done; lia.
Defined.

(** X8: with no call failing, the intermediate process of
    [nih_main_daemonise] leaves in the pid file the pid the second [fork]
    returned, that of the grandchild: [nih_main_read_pidfile] returns it. *)
Theorem daemonise_records_grandchild (fuel : nat) (os : System)
    (io io' : Faults) (st : State) (prog : string) :
  program_name st = Some prog →
  absolute_pid_file st →
  fork1 os = 0 → 0 < fork2 os ≤ INT_MAX →
  first_fault io = None →
  fopen_fault io' = None →
  ∃ st1 st2,
    nih_main_daemonise fuel os io st = Ret (Exits 0, st1)
    ∧ raised st1 = raised st
    ∧ nih_main_read_pidfile io' st1 = Ret (fork2 os, st2).
Proof.
  intros Hprog Habs H1 H2 Hio Hio'.
  unfold nih_main_daemonise. rewrite Hprog, H1. simpl.
  rewrite (proj2 (Z.ltb_ge _ _)) by lia.
  rewrite (proj2 (Z.gtb_gt _ _)) by lia.
  set (st0 := log Fork _).
  assert (Hp : program_name st0 = Some prog) by exact Hprog.
  assert (Ha : absolute_pid_file st0) by exact Habs.
  pose proof (write_pidfile_cases io (fork2 os) st0 prog ltac:(lia) Hp Ha)
    as Hcases.
  rewrite (no_fault_closes_once io Hio) in Hcases.
  destruct Hcases as (ret & st1 & -> & Hprog1 & Hpath & _ & Hok).
  rewrite Hio in Hok. destruct Hok as (-> & Hraised & Hfile). simpl.
  set (st2 := log (Exit 0) st1).
  assert (Hprog2 : program_name st2 = Some prog) by exact Hprog1.
  assert (Hfile2 : files st2 !! location st2
                   = Some (decimal (fork2 os) +:+ newline)).
  { change (files st1 !! location st1 = Some (decimal (fork2 os) +:+ newline)).
    by rewrite (location_cached _ _ Hpath). }
  destruct (read_pidfile_written io' (fork2 os) st2 prog H2 Hprog2 Hio' Hfile2)
    as [st3 Hread].
  by exists st2, st3.
Qed.

Lemma daemonise_records_grandchild_witness :
  ∃ st1 st2,
    nih_main_daemonise 1 (mkSystem 0 0 513 0 3 (λ _, 4)) no_faults
      (init "upstart") = Ret (Exits 0, st1)
    ∧ raised st1 = raised (init "upstart")
    ∧ nih_main_read_pidfile no_faults st1 = Ret (513, st2).
Proof.
  apply (daemonise_records_grandchild 1 (mkSystem 0 0 513 0 3 (λ _, 4))
           no_faults no_faults (init "upstart") "upstart"); simpl; done.
Defined.

(** X9: in none of its processes does [nih_main_daemonise] change a file
    other than the pid file and its temporary file, and only the
    intermediate process, between a first [fork] that returned 0 and a
    second that returned a pid, changes a file at all. *)
Theorem daemonise_leaves_other_files (fuel : nat) (os : System)
    (io : Faults) (st st' : State) (e : Ending) :
  absolute_pid_file st →
  nih_main_daemonise fuel os io st = Ret (e, st') →
  (∀ q, q ≠ location st → q ≠ temporary (location st) →
     files st' !! q = files st !! q)
  ∧ (¬ (fork1 os = 0 ∧ fork2 os > 0) → files st' = files st).
Proof.
  intros Habs. unfold nih_main_daemonise.
  destruct (program_name st) as [prog|] eqn:Hprog; [|done]. simpl.
  destruct (Z.ltb_spec (fork1 os) 0) as [H1|H1];
    [by intros [= _ <-]|].
  destruct (Z.gtb_spec (fork1 os) 0) as [H1'|H1'];
    [intros [= _ <-]; split; [done | intros _; done]|].
  destruct (Z.ltb_spec (fork2 os) 0) as [H2|H2];
    [by intros [= _ <-]|].
  destruct (Z.gtb_spec (fork2 os) 0) as [H2'|H2'].
  - set (st0 := log Fork _).
    assert (Hp : program_name st0 = Some prog) by exact Hprog.
    assert (Ha : absolute_pid_file st0) by exact Habs.
    pose proof (write_pidfile_cases io (fork2 os) st0 prog ltac:(lia) Hp Ha)
      as Hcases.
    destruct (closes_twice io); [by rewrite Hcases|].
    destruct Hcases as (ret & st1 & -> & _ & _ & Hframe & _).
    simpl. intros [= _ <-]. split; [|intros []; lia].
    intros q Hq1 Hq2. destruct (ret <? 0); exact (Hframe q Hq1 Hq2).
  - simpl. destruct (open_ret os >=? 0).
    + intros Hrun.
      apply bind_Ret_inv in Hrun as (st3 & Hrun & [= _ <-]).
      apply bind_Ret_inv in Hrun as ([n st1] & Hdup1 & Hrun).
      apply bind_Ret_inv in Hrun as ([m st2] & Hdup2 & [= <-]).
      apply dup_retry_files in Hdup1, Hdup2.
      rewrite Hdup2, Hdup1. done.
    + by intros [= _ <-].
Qed.

Lemma daemonise_leaves_other_files_witness :
  (∀ q, q ≠ "/var/run/upstart.pid" → q ≠ "/var/run/.upstart.pid.tmp" →
     files (log (Exit 0) (log Fork (holding "812"))) !! q
     = files (holding "812") !! q)
  ∧ (¬ (1 = 0 ∧ 0 > 0) →
     files (log (Exit 0) (log Fork (holding "812"))) = files (holding "812")).
Proof.
  apply (daemonise_leaves_other_files 1 (mkSystem 1 0 0 0 3 (λ _, 4))
           no_faults (holding "812") _ (Exits 0)).
  - intros name [=].
  - reflexivity.
Defined.

(** *** The name of the program *)

Lemma append_assoc (a b c : string) : (a +:+ b) +:+ c = a +:+ b +:+ c.
Proof.
  induction a as [|x a IH]; [done|].
  change (String x ((a +:+ b) +:+ c) = String x (a +:+ b +:+ c)).
  by f_equal.
Qed.

Lemma strrchr_slash_base (s dir base : string) :
  strrchr_slash s = Some (dir, base) → strrchr_slash base = None.
Proof.
  revert dir. induction s as [|c rest IH]; intros dir; simpl; [done|].
  destruct (strrchr_slash rest) as [[dir' base']|] eqn:Hrest.
  - intros [= _ <-]. by eapply IH.
  - destruct (Ascii.eqb c "/"); [|done]. by intros [= _ <-].
Qed.

Lemma strrchr_slash_tail (c : ascii) (rest : string) :
  strrchr_slash (String c rest) = None → strrchr_slash rest = None.
Proof. simpl. by destruct (strrchr_slash rest) as [[? ?]|]. Qed.

Lemma basename_no_slash (argv0 : string) :
  strrchr_slash (basename argv0) = None.
Proof.
  unfold basename.
  destruct (strrchr_slash argv0) as [[dir base]|] eqn:Hslash.
  - by eapply strrchr_slash_base.
  - destruct argv0 as [|c rest]; [done|].
    destruct (Ascii.eqb c "-"); [|done]. by eapply strrchr_slash_tail.
Qed.

Lemma basename_suffix (argv0 : string) :
  ∃ pre, argv0 = pre +:+ basename argv0.
Proof.
  unfold basename.
  destruct (strrchr_slash argv0) as [[dir base]|] eqn:Hslash.
  - exists (dir +:+ "/"). apply strrchr_slash_split in Hslash.
    by rewrite Hslash, append_assoc.
  - destruct argv0 as [|c rest]; [by exists ""|].
    destruct (Ascii.eqb_spec c "-") as [->|]; [by exists "-" | by exists ""].
Qed.

Lemma strrchr_slash_append (a b : string) :
  strrchr_slash a = None → strrchr_slash b = None →
  strrchr_slash (a +:+ b) = None.
Proof.
  intros Ha Hb. induction a as [|c a IH]; [done|].
  change (strrchr_slash (String c (a +:+ b)) = None). simpl in *.
  destruct (strrchr_slash a) as [[? ?]|]; [done|].
  rewrite IH by done. by destruct (Ascii.eqb c "/").
Qed.

Lemma strrchr_slash_join (dir base : string) :
  strrchr_slash base = None →
  strrchr_slash (dir +:+ "/" +:+ base) = Some (dir, base).
Proof.
  intros Hbase. induction dir as [|c dir IH].
  - change (strrchr_slash (String "/" base) = Some ("", base)).
    simpl. by rewrite Hbase.
  - change (strrchr_slash (String c (dir +:+ "/" +:+ base))
            = Some (String c dir, base)).
    simpl. by rewrite IH.
Qed.

(** X10: the program name [nih_main_init_full] takes from [argv0] is an
    end of [argv0] that holds no slash, so that the default pid file is
    [/var/run/<name>.pid] and its temporary file
    [/var/run/.<name>.pid.tmp], both in [/var/run] whatever directory
    [argv0] names. *)
Theorem init_full_pid_file_in_var_run (argv0 package version : string)
    (bugreport copyright : option string) (pkg : Package) (st : State) :
  pid_file st = None →
  ∃ pkg' st' prog,
    nih_main_init_full (Some argv0) (Some package) (Some version)
      bugreport copyright pkg st = Ret (pkg', st')
    ∧ program_name st' = Some prog
    ∧ strrchr_slash prog = None
    ∧ (∃ pre, argv0 = pre +:+ prog)
    ∧ location st' = "/var/run/" +:+ prog +:+ ".pid"
    ∧ temporary (location st') = "/var/run/." +:+ prog +:+ ".pid.tmp".
Proof.
  intros Hpid. eexists _, _, (basename argv0).
  split; [reflexivity|]. simpl. split; [done|].
  split; [apply basename_no_slash|]. split; [apply basename_suffix|].
  assert (Hloc : location (set_program_name (Some (basename argv0)) st)
                 = "/var/run" +:+ "/" +:+ (basename argv0 +:+ ".pid")).
  { unfold location. simpl. by rewrite Hpid. }
  split; [exact Hloc|]. unfold temporary.
  rewrite Hloc, strrchr_slash_join;
    [|by apply strrchr_slash_append; [apply basename_no_slash|]].
  by rewrite (append_assoc (basename argv0)).
Qed.

Lemma init_full_pid_file_in_var_run_witness :
  ∃ pkg' st' prog,
    nih_main_init_full (Some "/sbin/init") (Some "upstart") (Some "1.12")
      None None unset (mkState None None ∅ 18 None []) = Ret (pkg', st')
    ∧ program_name st' = Some prog
    ∧ strrchr_slash prog = None
    ∧ (∃ pre, "/sbin/init" = pre +:+ prog)
    ∧ location st' = "/var/run/" +:+ prog +:+ ".pid"
    ∧ temporary (location st') = "/var/run/." +:+ prog +:+ ".pid.tmp".
Proof.
  apply (init_full_pid_file_in_var_run "/sbin/init" "upstart" "1.12"
           None None unset (mkState None None ∅ 18 None [])).
  reflexivity.
Defined.

(** X11: of two calls of [nih_main_init_full] the second decides the
    program name, the package name, version and string; a bug report
    address or copyright message it gives as [NULL] or empty is the one
    the first call left. *)
Theorem init_full_twice (argv1 package1 version1 bugreport1 copyright1
    argv2 package2 version2 bugreport2 copyright2 : option string)
    (pkg pkg1 : Package) (st st1 : State) :
  nih_main_init_full argv1 package1 version1 bugreport1 copyright1 pkg st
  = Ret (pkg1, st1) →
  nih_main_init_full argv2 package2 version2 bugreport2 copyright2 pkg1 st1
  = nih_main_init_full argv2 package2 version2
      (if given bugreport2 then bugreport2 else bugreport1)
      (if given copyright2 then copyright2 else copyright1) pkg st.
Proof.
  unfold nih_main_init_full.
  destruct argv1, package1, version1; try done. simpl.
  intros [= <- <-].
  destruct argv2, package2, version2; try done. simpl.
  do 2 f_equal. f_equal.
  - destruct (given copyright2) eqn:H2; [by rewrite H2|].
    by destruct (given copyright1).
  - destruct (given bugreport2) eqn:H2; [by rewrite H2|].
    by destruct (given bugreport1).
Qed.

Lemma init_full_twice_witness :
  nih_main_init_full (Some "-sh") (Some "dash") (Some "0.5") (Some "") None
    (mkPackage (Some "upstart") (Some "1.12") None (Some "bugs@example.org")
       (Some "init (upstart 1.12)"))
    (init "init")
  = nih_main_init_full (Some "-sh") (Some "dash") (Some "0.5")
      (Some "bugs@example.org") None unset (mkState None None ∅ 18 None []).
Proof.
  apply (init_full_twice (Some "/sbin/init") (Some "upstart") (Some "1.12")
           (Some "bugs@example.org") None
           (Some "-sh") (Some "dash") (Some "0.5") (Some "") None
           unset _ (mkState None None ∅ 18 None []) _).
  reflexivity.
Defined.

End ProcessSpec.

(** ** The main loop *)

Module LoopSpec.
Import Loop.

(** *** The interrupt pipe *)

Lemma init_initialised st : initialised (nih_main_loop_init st).
Proof.
  unfold nih_main_loop_init, initialised.
  destruct (nih_main_loop_functions st) eqn:Ef, (interrupt_pipe st) eqn:Ep;
    simpl; rewrite ?Ef, ?Ep; simpl; rewrite ?Ef, ?Ep; eauto.
Qed.

Lemma init_idem st : initialised st → nih_main_loop_init st = st.
Proof.
  intros [[p Hp] [r Hr]]. unfold nih_main_loop_init. by rewrite Hr, Hp.
Qed.

Lemma init_pipe st p :
  interrupt_pipe st = Some p → interrupt_pipe (nih_main_loop_init st) = Some p.
Proof.
  intros Hp. unfold nih_main_loop_init.
  destruct (nih_main_loop_functions st); simpl; by rewrite Hp.
Qed.

Lemma write_pipe_full st :
  pipe_full st →
  write_pipe st = (-1, log (Write (-1)) st) ∧ pipe_full (log (Write (-1)) st).
Proof.
  intros (p & Hp & Hfull). unfold write_pipe. rewrite Hp.
  rewrite (proj2 (Nat.ltb_ge _ _)) by done. split; [done|].
  exists p. by split.
Qed.

Lemma write_retry_full fuel st : pipe_full st → write_retry fuel st = OutOfFuel.
Proof.
  revert st. induction fuel as [|fuel IH]; intros st Hfull; simpl; [done|].
  destruct (write_pipe_full st Hfull) as [-> Hfull']. simpl. by apply IH.
Qed.

Lemma attempts_full n st :
  pipe_full st →
  trace (attempts n st) = trace st ++ replicate n (Write (-1))
  ∧ interrupt_pipe (attempts n st) = interrupt_pipe st.
Proof.
  revert st. induction n as [|n IH]; intros st Hfull; simpl.
  - by rewrite app_nil_r.
  - destruct (write_pipe_full st Hfull) as [-> Hfull']. simpl.
    destruct (IH _ Hfull') as [-> ->]. simpl.
    by rewrite <- app_assoc.
Qed.

(** C4 fails on the code: with the interrupt pipe full, every [write]
    answers -1 and [nih_main_loop_interrupt] writes again; whatever the
    number of steps it is given, it has not returned, and after [n]
    attempts it has made [n] failed writes and the pipe is as full as
    before. *)
Theorem interrupt_retries_when_full (fuel n : nat) (st : State) :
  pipe_full st →
  nih_main_loop_interrupt fuel st = OutOfFuel
  ∧ trace (attempts n (nih_main_loop_init st))
    = trace (nih_main_loop_init st) ++ replicate n (Write (-1))
  ∧ pipe_full (attempts n (nih_main_loop_init st)).
Proof.
  intros Hfull.
  assert (Hfull' : pipe_full (nih_main_loop_init st)).
  { destruct Hfull as (p & Hp & Hle). exists p. split; [|done].
    by apply init_pipe. }
  split; [|split].
  - unfold nih_main_loop_interrupt.
    destruct Hfull' as (p & Hp & Hle). rewrite Hp.
    apply write_retry_full. by exists p.
  - by apply attempts_full.
  - destruct (attempts_full n _ Hfull') as [_ Hsame].
    destruct Hfull' as (p & Hp & Hle). exists p. split; [|done].
    by rewrite Hsame.
Qed.

Lemma interrupt_retries_when_full_witness :
  nih_main_loop_interrupt 1000 clogged = OutOfFuel
  ∧ trace (attempts 3 (nih_main_loop_init clogged))
    = trace (nih_main_loop_init clogged) ++ replicate 3 (Write (-1))
  ∧ pipe_full (attempts 3 (nih_main_loop_init clogged)).
Proof.
  apply (interrupt_retries_when_full 1000 3 clogged).
  exists (mkPipe linux_pipe_size linux_pipe_size).
  split; [reflexivity | apply le_n].
Defined.

(** With room in the pipe the first [write] succeeds and the call
    returns. *)
Lemma interrupt_room fuel st p :
  initialised st →
  interrupt_pipe st = Some p →
  (pending p < capacity p)%nat →
  nih_main_loop_interrupt (S fuel) st
  = Ret (log (Write 1)
           (set_pipe (Some (mkPipe (S (pending p)) (capacity p))) st)).
Proof.
  intros Hinit Hp Hroom. unfold nih_main_loop_interrupt.
  rewrite init_idem by done. rewrite Hp. simpl.
  unfold write_pipe. rewrite Hp.
  by rewrite (proj2 (Nat.ltb_lt _ _)) by done.
Qed.

(** *** What a run leaves in the trace *)

Create HintDb trace.

Lemma follows_refl st : follows st st [].
Proof. unfold follows. by rewrite app_nil_r. Qed.

#[local] Hint Resolve follows_refl : trace.

Lemma follows_trans st1 st2 st3 l1 l2 :
  follows st1 st2 l1 → follows st2 st3 l2 → follows st1 st3 (l1 ++ l2).
Proof. unfold follows. intros H1 H2. by rewrite H2, H1, app_assoc. Qed.

Lemma steps_app l1 l2 : steps (l1 ++ l2) = steps l1 ++ steps l2.
Proof. apply List.filter_app. Qed.

Lemma inside_step_refl st : inside_step st st.
Proof. exists []. split; [auto with trace | done]. Qed.

Lemma inside_step_trans st1 st2 st3 :
  inside_step st1 st2 → inside_step st2 st3 → inside_step st1 st3.
Proof.
  intros (l1 & H1 & E1) (l2 & H2 & E2). exists (l1 ++ l2).
  split; [by eapply follows_trans|]. by rewrite steps_app, E1, E2.
Qed.

#[local] Hint Resolve inside_step_refl : trace.

Ltac emits l :=
  exists l; split;
  [unfold follows; simpl; rewrite ?app_nil_r; reflexivity | reflexivity].

Lemma init_inside_step st : inside_step st (nih_main_loop_init st).
Proof.
  unfold nih_main_loop_init.
  destruct (nih_main_loop_functions st), (interrupt_pipe st) eqn:Ep; simpl;
    rewrite ?Ep;
    first [apply inside_step_refl | emits [Pipe] | emits (@nil Event)].
Qed.

Lemma write_retry_inside_step fuel st st' :
  write_retry fuel st = Ret st' → inside_step st st'.
Proof.
  revert st. induction fuel as [|fuel IH]; intros st; simpl; [done|].
  unfold write_pipe.
  destruct (interrupt_pipe st) as [p|]; [destruct (_ <? _)%nat|]; simpl.
  - intros [= <-]. emits [Write 1].
  - intros H%IH. eapply inside_step_trans; [|done]. emits [Write (-1)].
  - intros H%IH. eapply inside_step_trans; [|done]. emits [Write (-1)].
Qed.

Lemma interrupt_inside_step fuel st st' :
  nih_main_loop_interrupt fuel st = Ret st' → inside_step st st'.
Proof.
  unfold nih_main_loop_interrupt. intros H.
  eapply inside_step_trans; [apply init_inside_step|].
  destruct (interrupt_pipe (nih_main_loop_init st)).
  - by eapply write_retry_inside_step.
  - injection H as <-. auto with trace.
Qed.

Lemma run_op_inside_step fuel op st st' :
  run_op fuel op st = Ret st' → inside_step st st'.
Proof.
  destruct op as [status| |func cb d|h]; simpl.
  - unfold nih_main_loop_exit. intros H%interrupt_inside_step.
    eapply inside_step_trans; [|done]. emits [ExitRequest status].
  - apply interrupt_inside_step.
  - unfold nih_main_loop_add_func. destruct cb as [cb|]; simpl; [|done].
    destruct func; simpl; intros [= <-];
      (eapply inside_step_trans; [apply init_inside_step|]);
      emits (@nil Event).
  - unfold nih_free. destruct (nih_main_loop_functions st); [|done].
    destruct (bool_decide _); [|done]. intros [= <-]. emits (@nil Event).
Qed.

Lemma run_ops_inside_step fuel ops st st' :
  run_ops fuel ops st = Ret st' → inside_step st st'.
Proof.
  revert st. induction ops as [|op ops IH]; intros st; simpl.
  - intros [= <-]. auto with trace.
  - intros (st1 & H1 & H2)%bind_Ret_inv.
    eapply inside_step_trans; [by eapply run_op_inside_step | by apply IH].
Qed.

(** The steps a traversal of the loop functions adds are invocations of
    callbacks. *)
Lemma foreach_safe_steps fuel st st' :
  foreach_safe fuel st = Ret st' →
  ∃ l invoked, follows st st' l
               ∧ steps l = map (λ f, Callback (handle f) (data f)) invoked.
Proof.
  revert st. induction fuel as [|fuel IH]; intros st; simpl; [done|].
  destruct (ahead (registry st)) as [|func rest].
  - intros [= <-]. exists [], []. split; [auto with trace | done].
  - intros (st1 & H1 & H2)%bind_Ret_inv.
    apply run_ops_inside_step in H1 as (l1 & H1 & E1).
    apply IH in H2 as (l2 & invoked & H2 & E2).
    exists ((Callback (handle func) (data func) :: l1) ++ l2), (func :: invoked).
    split.
    + eapply follows_trans; [|done].
      unfold follows in *. rewrite H1. simpl. by rewrite <- app_assoc.
    + rewrite steps_app, E2.
      change (steps (Callback (handle func) (data func) :: l1))
        with (Callback (handle func) (data func) :: steps l1).
      by rewrite E1.
Qed.

Lemma read_all_follows n st :
  follows st (read_all n st) (replicate n (Read 1) ++ [Read (-1)]).
Proof.
  revert st. induction n as [|n IH]; intros st; simpl; [done|].
  unfold follows in *. rewrite IH. simpl. by rewrite <- app_assoc.
Qed.

Lemma drain_follows st :
  ∃ n, follows st (drain st) (replicate n (Read 1) ++ [Read (-1)])
       ∧ n = from_option pending O (interrupt_pipe st).
Proof.
  unfold drain. destruct (interrupt_pipe st) as [p|]; simpl.
  - exists (pending p). split; [|done].
    apply (read_all_follows (pending p) (set_pipe _ st)).
  - by exists O.
Qed.

Lemma iteration_steps fuel w st st' :
  iteration fuel w st = Ret st' →
  ∃ l, follows st st' l ∧ dispatch_order w (steps l).
Proof.
  unfold iteration.
  intros ([now st0] & Hwait & Hrun)%bind_Ret_inv.
  assert (Hstart : ∃ l0, follows st st0 l0 ∧ steps l0 = []
            ∧ waits_for w (select_timeout (next_timer w) now)).
  { unfold waits_for. destruct (next_timer w) as [due|]; simpl in *.
    - destruct (clock w) as [t|]; simpl in Hwait; [|done].
      injection Hwait as <- <-. exists [ClockGettime].
      split; [reflexivity|]. split; [reflexivity|]. eauto.
    - injection Hwait as <- <-. exists []. split; [auto with trace | done]. }
  destruct Hstart as (l0 & H0 & E0 & Htimeout).
  apply bind_Ret_inv in Hrun as (st1 & Hio & Hrun).
  apply bind_Ret_inv in Hrun as (st2 & Hsig & Hrun).
  apply bind_Ret_inv in Hrun as (st3 & Hchild & Hrun).
  apply bind_Ret_inv in Hrun as (st4 & Htimer & Hrun).
  set (sel := Select (select_timeout (next_timer w) now)) in *.
  assert (Hio' : ∃ l1, follows (log sel st0) st1 l1
            ∧ steps l1 = if select_ret w >? 0 then [IoHandleFds] else []).
  { destruct (select_ret w >? 0).
    - apply run_ops_inside_step in Hio as (l1 & H1 & E1).
      exists (IoHandleFds :: l1). split.
      + unfold follows in *. rewrite H1. simpl. by rewrite <- app_assoc.
      + change (steps (IoHandleFds :: l1)) with (IoHandleFds :: steps l1).
        by rewrite E1.
    - injection Hio as <-. exists []. split; [auto with trace | done]. }
  destruct Hio' as (l1 & H1 & E1).
  destruct (drain_follows st1) as (bytes & Hdrain & _).
  apply run_ops_inside_step in Hsig as (l2 & H2 & E2).
  apply run_ops_inside_step in Hchild as (l3 & H3 & E3).
  apply run_ops_inside_step in Htimer as (l4 & H4 & E4).
  unfold run_loop_functions in Hrun.
  apply foreach_safe_steps in Hrun as (l5 & invoked & H5 & E5).
  exists (l0 ++ [sel] ++ l1 ++ (replicate bytes (Read 1) ++ [Read (-1)])
          ++ [SignalPoll] ++ l2 ++ [ChildPoll] ++ l3 ++ [TimerPoll] ++ l4
          ++ l5).
  split.
  - unfold follows in *. simpl in *.
    rewrite H5, H4, H3, H2, Hdrain, H1, H0. simpl.
    rewrite <- !app_assoc. simpl. reflexivity.
  - exists (select_timeout (next_timer w) now), bytes, invoked.
    split; [done|]. unfold block.
    rewrite !steps_app, E0, E1, E2, E3, E4, E5. simpl.
    assert (Hreads : steps (replicate bytes (Read 1))
                     = replicate bytes (Read 1)).
    { clear. induction bytes as [|n IH]; simpl; [done|].
      unfold steps in *. simpl. by rewrite IH. }
    rewrite Hreads, <- !app_assoc. reflexivity.
Qed.

Lemma iterate_reaches fuel ws st st' :
  iterate fuel ws st = Ret st' →
  ∃ used unused,
    ws = used ++ unused ∧ reaches fuel used st st' ∧ exit_loop st' ≠ 0.
Proof.
  revert st. induction ws as [|w ws IH]; intros st; simpl.
  - destruct (decide (exit_loop st = 0)); [done|].
    intros [= <-]. by exists [], [].
  - destruct (decide (exit_loop st = 0)) as [Hzero|Hexit].
    + intros (st1 & H1 & H2)%bind_Ret_inv.
      apply IH in H2 as (used & unused & -> & Hreach & Hexit).
      exists (w :: used), unused. simpl. eauto 10.
    + intros [= <-]. by exists [], (w :: ws).
Qed.

Lemma reaches_iterate fuel used ws st st' :
  reaches fuel used st st' → iterate fuel (used ++ ws) st = iterate fuel ws st'.
Proof.
  revert st. induction used as [|w used IH]; intros st; simpl.
  - by intros ->.
  - intros (Hzero & st1 & H1 & H2).
    destruct (decide (exit_loop st = 0)); [|done].
    rewrite H1. simpl. by apply IH.
Qed.


Lemma selects_app l1 l2 : selects (l1 ++ l2) = selects l1 ++ selects l2.
Proof. apply omap_app. Qed.

Lemma selects_steps l : selects (steps l) = selects l.
Proof.
  induction l as [|e l IH]; [done|].
  destruct e; simpl; unfold selects in *; simpl; by rewrite ?IH.
Qed.

Lemma selects_block w timeout bytes invoked :
  selects (block w timeout bytes invoked) = [timeout].
Proof.
  unfold block. rewrite !selects_app. simpl.
  assert (Hio : selects (if select_ret w >? 0 then [IoHandleFds] else []) = [])
    by by destruct (_ >? _).
  assert (Hreads : selects (replicate bytes (Read 1)) = []).
  { induction bytes as [|n IH]; [done|]. simpl. by rewrite IH. }
  assert (Hcalls : selects (map (λ f, Callback (handle f) (data f)) invoked)
                   = []).
  { induction invoked as [|f invoked IH]; [done|]. simpl. by rewrite IH. }
  unfold selects in *. simpl. by rewrite Hio, Hreads, Hcalls.
Qed.

Lemma reaches_selects fuel used st st' :
  reaches fuel used st st' →
  ∃ l timeouts, follows st st' l
                ∧ selects l = timeouts
                ∧ Forall2 waits_for used timeouts.
Proof.
  revert st. induction used as [|w used IH]; intros st; simpl.
  - intros ->. exists [], []. split; [auto with trace | by split].
  - intros (_ & st1 & H1 & H2).
    apply iteration_steps in H1
      as (l1 & H1 & timeout & bytes & invoked & Hwait & Hblock).
    apply IH in H2 as (l2 & timeouts & H2 & E2 & Hall).
    exists (l1 ++ l2), (timeout :: timeouts).
    split; [by eapply follows_trans|]. split; [|by constructor].
    by rewrite selects_app, <- (selects_steps l1), Hblock, selects_block, E2.
Qed.

(** A run of [nih_main_loop] that returns has run some of the iterations
    it was given, one after the other. *)
Lemma main_loop_reaches fuel ws st status st' :
  nih_main_loop fuel ws st = Ret (status, st') →
  ∃ used unused st_end,
    ws = used ++ unused
    ∧ reaches fuel used (log SetHandler (nih_main_loop_init st)) st_end
    ∧ exit_loop st_end ≠ 0
    ∧ status = exit_status st_end
    ∧ st' = set_exit_loop 0 st_end.
Proof.
  unfold nih_main_loop. intros (st_end & Hrun & Hret)%bind_Ret_inv.
  apply iterate_reaches in Hrun as (used & unused & -> & Hreach & Hexit).
  injection Hret as <- <-. by exists used, unused, st_end.
Qed.

Lemma main_loop_follows st :
  ∃ l, follows st (log SetHandler (nih_main_loop_init st)) l
       ∧ steps l = [] ∧ selects l = [].
Proof.
  unfold nih_main_loop_init, follows.
  destruct (nih_main_loop_functions st), (interrupt_pipe st) eqn:Ep; simpl;
    rewrite ?Ep; simpl;
    first [by exists [SetHandler] | exists [Pipe; SetHandler];
           by rewrite <- app_assoc].
Qed.

Lemma iterate_exit fuel ws st :
  exit_loop st ≠ 0 → iterate fuel ws st = Ret st.
Proof. intros Hexit. destruct ws; simpl; by destruct (decide _). Qed.

Lemma main_loop_returns fuel used unused st st_k :
  reaches fuel used (log SetHandler (nih_main_loop_init st)) st_k →
  exit_loop st_k ≠ 0 →
  nih_main_loop fuel (used ++ unused) st
  = Ret (exit_status st_k, set_exit_loop 0 st_k).
Proof.
  intros Hreach Hexit. unfold nih_main_loop.
  rewrite (reaches_iterate fuel used unused _ st_k Hreach).
  by rewrite iterate_exit.
Qed.

(** *** Requests to exit and the interrupt pipe, whatever is called *)

Lemma exit_track_app l1 l2 e :
  exit_track (l1 ++ l2) e = exit_track l2 (exit_track l1 e).
Proof.
  unfold exit_track. fold (requests l1). replace (requests (l1 ++ l2))
    with (requests l1 ++ requests l2) by (unfold requests; by rewrite omap_app).
  rewrite last_app.
  by destruct (last (requests l2)), (last (requests l1)).
Qed.

Lemma pipes_app l1 l2 : pipes (l1 ++ l2) = (pipes l1 + pipes l2)%nat.
Proof. unfold pipes. by rewrite omap_app, length_app. Qed.

Lemma evolves_refl st : evolves st st.
Proof. exists []. split; [apply follows_refl | done]. Qed.

Lemma evolves_trans st1 st2 st3 :
  evolves st1 st2 → evolves st2 st3 → evolves st1 st3.
Proof.
  intros (l1 & H1 & E1 & P1) (l2 & H2 & E2 & P2). exists (l1 ++ l2).
  split; [by eapply follows_trans|].
  split; [by rewrite exit_track_app, <- E1|].
  rewrite pipes_app. lia.
Qed.

Ltac evolving l :=
  exists l; split;
  [unfold follows; simpl; rewrite ?app_nil_r; reflexivity
  |split; [reflexivity|];
   unfold created; simpl;
   try match goal with H : interrupt_pipe _ = _ |- _ => rewrite H end;
   reflexivity].

Lemma init_evolves st : evolves st (nih_main_loop_init st).
Proof.
  unfold nih_main_loop_init.
  destruct (nih_main_loop_functions st), (interrupt_pipe st) eqn:Ep; simpl;
    rewrite ?Ep; first [evolving (@nil Event) | evolving [Pipe]].
Qed.

Lemma write_retry_evolves fuel st st' :
  write_retry fuel st = Ret st' → evolves st st'.
Proof.
  revert st. induction fuel as [|fuel IH]; intros st; simpl; [done|].
  unfold write_pipe.
  destruct (interrupt_pipe st) as [p|] eqn:Ep; [destruct (_ <? _)%nat|]; simpl.
  - intros [= <-]. evolving [Write 1].
  - intros H%IH. eapply evolves_trans; [|done]. evolving [Write (-1)].
  - intros H%IH. eapply evolves_trans; [|done]. evolving [Write (-1)].
Qed.

Lemma interrupt_evolves fuel st st' :
  nih_main_loop_interrupt fuel st = Ret st' → evolves st st'.
Proof.
  unfold nih_main_loop_interrupt. intros H.
  eapply evolves_trans; [apply init_evolves|].
  destruct (interrupt_pipe (nih_main_loop_init st)).
  - by eapply write_retry_evolves.
  - injection H as <-. apply evolves_refl.
Qed.

Lemma run_op_evolves fuel op st st' :
  run_op fuel op st = Ret st' → evolves st st'.
Proof.
  destruct op as [status| |func cb d|h]; simpl.
  - unfold nih_main_loop_exit. intros H%interrupt_evolves.
    eapply evolves_trans; [|done]. evolving [ExitRequest status].
  - apply interrupt_evolves.
  - unfold nih_main_loop_add_func.
    destruct cb as [cb|]; simpl; [|done]. intros H.
    eapply evolves_trans; [apply init_evolves|].
    destruct func; injection H as <-; first [apply evolves_refl |
      destruct (interrupt_pipe (nih_main_loop_init st)) eqn:Ep;
      evolving (@nil Event)].
  - unfold nih_free. destruct (nih_main_loop_functions st); [|done].
    destruct (bool_decide _); [|done].
    intros [= <-]. evolving (@nil Event).
Qed.

Lemma run_ops_evolves fuel ops st st' :
  run_ops fuel ops st = Ret st' → evolves st st'.
Proof.
  revert st. induction ops as [|op ops IH]; intros st; simpl.
  - intros [= <-]. apply evolves_refl.
  - intros (st1 & H1 & H2)%bind_Ret_inv.
    eapply evolves_trans; [by eapply run_op_evolves | by apply IH].
Qed.

Lemma foreach_safe_evolves fuel st st' :
  foreach_safe fuel st = Ret st' → evolves st st'.
Proof.
  revert st. induction fuel as [|fuel IH]; intros st; simpl; [done|].
  destruct (ahead (registry st)) as [|func rest].
  - intros [= <-]. apply evolves_refl.
  - intros (st1 & H1 & H2)%bind_Ret_inv.
    apply run_ops_evolves in H1. apply IH in H2.
    eapply evolves_trans; [|eapply evolves_trans; [exact H1 | exact H2]].
    evolving [Callback (handle func) (data func)].
Qed.

Lemma read_all_evolves n st : evolves st (read_all n st).
Proof.
  revert st. induction n as [|n IH]; intros st; simpl.
  - evolving [Read (-1)].
  - eapply evolves_trans; [|apply IH]. evolving [Read 1].
Qed.

Lemma drain_evolves st : evolves st (drain st).
Proof.
  unfold drain. destruct (interrupt_pipe st) as [p|] eqn:Ep.
  - eapply evolves_trans; [|apply read_all_evolves]. evolving (@nil Event).
  - evolving [Read (-1)].
Qed.

Lemma iteration_evolves fuel w st st' :
  iteration fuel w st = Ret st' → evolves st st'.
Proof.
  unfold iteration.
  intros ([now st0] & Hwait & Hrun)%bind_Ret_inv.
  assert (H0 : evolves st st0).
  { destruct (next_timer w) as [due|]; simpl in *.
    - destruct (clock w) as [t|]; simpl in Hwait; [|done].
      injection Hwait as <- <-. evolving [ClockGettime].
    - injection Hwait as <- <-. apply evolves_refl. }
  apply bind_Ret_inv in Hrun as (st1 & Hio & Hrun).
  apply bind_Ret_inv in Hrun as (st2 & Hsig & Hrun).
  apply bind_Ret_inv in Hrun as (st3 & Hchild & Hrun).
  apply bind_Ret_inv in Hrun as (st4 & Htimer & Hrun).
  apply run_ops_evolves in Hsig, Hchild, Htimer.
  apply foreach_safe_evolves in Hrun.
  set (sel := Select (select_timeout (next_timer w) now)) in *.
  assert (H1 : evolves (log sel st0) st1).
  { destruct (select_ret w >? 0).
    - apply run_ops_evolves in Hio.
      eapply evolves_trans; [|done]. evolving [IoHandleFds].
    - injection Hio as <-. apply evolves_refl. }
  eapply evolves_trans; [exact H0|].
  eapply evolves_trans; [|eapply evolves_trans; [exact H1|]];
    [evolving [sel]|].
  eapply evolves_trans; [apply drain_evolves|].
  eapply evolves_trans; [|eapply evolves_trans; [exact Hsig|]];
    [evolving [SignalPoll]|].
  eapply evolves_trans; [|eapply evolves_trans; [exact Hchild|]];
    [evolving [ChildPoll]|].
  eapply evolves_trans; [|eapply evolves_trans; [exact Htimer|]];
    [evolving [TimerPoll]|].
  eapply evolves_trans; [|exact Hrun]. evolving (@nil Event).
Qed.

Lemma iterate_evolves fuel ws st st' :
  iterate fuel ws st = Ret st' → evolves st st' ∧ exit_loop st' ≠ 0.
Proof.
  revert st. induction ws as [|w ws IH]; intros st; simpl.
  - destruct (decide (exit_loop st = 0)); [done|].
    intros [= <-]. split; [apply evolves_refl | done].
  - destruct (decide (exit_loop st = 0)) as [Hzero|Hexit].
    + intros (st1 & H1 & H2)%bind_Ret_inv.
      apply iteration_evolves in H1. apply IH in H2 as [H2 Hexit].
      split; [by eapply evolves_trans | done].
    + intros [= <-]. split; [apply evolves_refl | done].
Qed.

Lemma main_loop_evolves fuel ws st status st' :
  nih_main_loop fuel ws st = Ret (status, st') →
  ∃ st_end,
    evolves st st_end ∧ exit_loop st_end ≠ 0
    ∧ status = exit_status st_end ∧ st' = set_exit_loop 0 st_end
    ∧ created st_end = 1%nat.
Proof.
  unfold nih_main_loop. intros (st_end & Hrun & Hret)%bind_Ret_inv.
  apply iterate_evolves in Hrun as [Hrun Hexit].
  injection Hret as <- <-. exists st_end.
  assert (Hstart : evolves (nih_main_loop_init st)
                     (log SetHandler (nih_main_loop_init st)))
    by evolving [SetHandler].
  split; [|split; [done|split; [done|split; [done|]]]].
  - eapply evolves_trans; [apply init_evolves|]. by eapply evolves_trans.
  - destruct (evolves_trans _ _ _ Hstart Hrun) as (l & _ & _ & Hpipes).
    destruct (init_initialised st) as [[p Hp] _].
    unfold created in *. rewrite Hp in Hpipes.
    destruct (interrupt_pipe st_end); lia.
Qed.

(** C1, as the code has it: in every iteration of [nih_main_loop] the
    timeout given to [select] has, when a timer is pending, [tv_sec] equal
    to the due time of the next timer minus the seconds of the monotonic
    clock and [tv_usec] zero, with no lower bound; when no timer is
    pending the timeout is [NULL].  This holds after any number of
    iterations, and so for the whole run when the loop then returns. *)
Theorem select_timeout_of_each_iteration (fuel : nat) (used : list Wakeup)
    (st st_k : State) :
  reaches fuel used (log SetHandler (nih_main_loop_init st)) st_k →
  (∃ timeouts,
     selects (trace st_k) = selects (trace st) ++ timeouts
     ∧ Forall2 waits_for used timeouts)
  ∧ (exit_loop st_k ≠ 0 →
     ∀ unused, ∃ st',
       nih_main_loop fuel (used ++ unused) st = Ret (exit_status st_k, st')
       ∧ trace st' = trace st_k).
Proof.
  intros Hreach. split.
  - apply reaches_selects in Hreach as (l & timeouts & Hl & El & Hall).
    destruct (main_loop_follows st) as (l0 & H0 & _ & E0).
    exists timeouts. split; [|done].
    unfold follows in *. simpl in *.
    by rewrite Hl, H0, !selects_app, E0, El, app_nil_r.
  - intros Hexit unused. exists (set_exit_loop 0 st_k).
    split; [by apply main_loop_returns | reflexivity].
Qed.

(** *** Callbacks that leave the other loop functions alone *)

Lemma frees_number_none ops : frees_number ops = O → frees ops = false.
Proof. induction ops as [|[] ops IH]; simpl; auto; lia. Qed.

Lemma run_ops_tame func fuel ops st p r :
  interrupt_pipe st = Some p →
  nih_main_loop_functions st = Some r →
  tame func ops →
  (frees ops = true → func ∈ handle <$> entries r) →
  (pending p + writes ops ≤ capacity p)%nat →
  run_ops (S fuel) ops st = Ret (after_ops func ops st p r).
Proof.
  intros Hp Hr [Htame Honce]. revert st p r Hp Hr Honce.
  induction Htame as [|op ops Hop Hops IH];
    intros st p r Hp Hr Honce Hlive Hroom.
  - simpl. f_equal. unfold after_ops. simpl.
    destruct st, p; simpl in *. subst.
    by rewrite Nat.add_0_r, app_nil_r.
  - assert (Hinit : initialised st) by (split; eauto).
    destruct op as [status| |? ? ?|h]; simpl in Hop; [| | done |].
    + simpl in Hroom, Honce, Hlive. cbn [run_ops run_op].
      unfold nih_main_loop_exit.
      rewrite (interrupt_room fuel _ p) by (done || lia). simpl.
      rewrite (IH _ (mkPipe (S (pending p)) (capacity p)) r);
        [|done|done|done|done|simpl; lia].
      f_equal. unfold after_ops. simpl.
      rewrite Nat.add_succ_r, <- !app_assoc.
      by destruct (exit_request ops).
    + simpl in Hroom, Honce, Hlive. cbn [run_ops run_op].
      rewrite (interrupt_room fuel _ p) by (done || lia). simpl.
      rewrite (IH _ (mkPipe (S (pending p)) (capacity p)) r);
        [|done|done|done|done|simpl; lia].
      f_equal. unfold after_ops. simpl.
      rewrite Nat.add_succ_r, <- !app_assoc.
      by destruct (exit_request ops).
    + subst h. simpl in Honce, Hlive.
      assert (Hnone : frees ops = false)
        by (apply frees_number_none; lia).
      cbn [run_ops run_op]. unfold nih_free. rewrite Hr.
      rewrite bool_decide_eq_true_2 by auto. simpl.
      rewrite (IH _ p (nih_list_destroy func r));
        [|done|done|lia|by rewrite Hnone|done].
      f_equal. unfold after_ops. simpl. rewrite Hnone.
      by destruct (exit_request ops).
Qed.

(** *** One traversal of the loop functions *)

Lemma writes_app ops1 ops2 :
  writes (ops1 ++ ops2) = (writes ops1 + writes ops2)%nat.
Proof.
  induction ops1 as [|op ops1 IH]; [done|].
  destruct op; simpl; by rewrite ?IH.
Qed.

Lemma exit_request_app ops1 ops2 :
  exit_request (ops1 ++ ops2)
  = match exit_request ops2 with
    | Some status => Some status
    | None => exit_request ops1
    end.
Proof.
  induction ops1 as [|op ops1 IH]; simpl.
  - by destruct (exit_request ops2).
  - rewrite IH. by destruct (exit_request ops2).
Qed.

Lemma filter_keep {A} (P : A → Prop) `{∀ x, Decision (P x)} (l : list A) :
  Forall P l → filter P l = l.
Proof.
  induction 1 as [|x l Hx Hl IH]; [done|].
  by rewrite filter_cons_True, IH.
Qed.

Lemma destroy_current before f rest :
  NoDup (handle <$> before ++ f :: rest) →
  nih_list_destroy (handle f) (mkRegistry (before ++ [f]) rest)
  = mkRegistry before rest.
Proof.
  rewrite fmap_app, fmap_cons.
  intros (_ & Hbefore & (Hrest & _)%NoDup_cons)%NoDup_app.
  unfold nih_list_destroy. simpl. f_equal.
  - rewrite filter_app, filter_cons_False, filter_nil, app_nil_r by naive_solver.
    apply filter_keep, Forall_forall. intros g Hg Heq.
    apply (Hbefore (handle g)); [by apply list_elem_of_fmap_2|].
    rewrite Heq. left.
  - apply filter_keep, Forall_forall. intros g Hg Heq.
    apply Hrest. rewrite <- Heq. by apply list_elem_of_fmap_2.
Qed.

Lemma foreach_safe_tame todo fuel st p r :
  interrupt_pipe st = Some p →
  nih_main_loop_functions st = Some r →
  ahead r = todo →
  NoDup (handle <$> entries r) →
  Forall (λ f, tame (handle f) (script f)) todo →
  (pending p + writes (all_ops todo) ≤ capacity p)%nat →
  (length todo < fuel)%nat →
  foreach_safe fuel st = Ret (after_pass todo st p r).
Proof.
  revert fuel st p r.
  induction todo as [|f rest IH];
    intros fuel st p r Hp Hr Hahead Hnodup Htame Hroom Hfuel;
    (destruct fuel as [|fuel]; [simpl in Hfuel; lia|]);
    simpl; unfold registry; rewrite Hr; simpl; rewrite Hahead.
  - f_equal. unfold after_pass. destruct st, p, r; simpl in *. subst.
    by rewrite Nat.add_0_r, !app_nil_r.
  - inversion Htame as [|? ? Hf Hrest]; subst.
    simpl in Hroom. rewrite writes_app in Hroom.
    set (r1 := mkRegistry (passed r ++ [f]) rest).
    set (st1 := log _ (set_functions (Some r1) st)).
    fold (script f).
    rewrite (run_ops_tame (handle f) fuel (script f) st1 p r1);
      [|done|done|done| |lia].
    2:{ intros _. unfold entries, r1. simpl.
        rewrite !fmap_app. simpl. set_solver. }
    simpl.
    set (r2 := if frees (script f) then nih_list_destroy (handle f) r1 else r1).
    assert (Hr2 : r2 = mkRegistry (passed r ++ (if frees (script f) then []
                                                else [f])) rest).
    { unfold r2, r1. destruct (frees (script f)).
      - rewrite destroy_current, app_nil_r; [done|].
        unfold entries in Hnodup. by rewrite Hahead in Hnodup.
      - done. }
    rewrite (IH fuel _ (mkPipe (pending p + writes (script f)) (capacity p)) r2);
      [|done|done|by rewrite Hr2| |done|simpl; lia|simpl in Hfuel; lia].
    + f_equal. unfold after_pass. simpl.
      rewrite writes_app, exit_request_app, Hr2, Nat.add_assoc. simpl.
      rewrite <- !app_assoc. simpl.
      destruct (exit_request (all_ops rest)), (exit_request (script f)),
        (frees (script f)); simpl; by rewrite ?app_nil_r.
    + rewrite Hr2. unfold entries in *. simpl. rewrite Hahead in Hnodup.
      destruct (frees (script f)).
      * rewrite app_nil_r. rewrite fmap_app, fmap_cons in Hnodup.
        rewrite fmap_app.
        apply NoDup_app in Hnodup as (H1 & H2 & (H3 & H4)%NoDup_cons).
        apply NoDup_app. split; [done|]. split; [|done].
        intros x Hx Hin. apply (H2 x Hx). by right.
      * by rewrite <- app_assoc.
Qed.









(** *** A whole iteration *)

Lemma exit_after_app ops1 ops2 e :
  exit_after (ops1 ++ ops2) e = exit_after ops2 (exit_after ops1 e).
Proof.
  unfold exit_after. rewrite exit_request_app.
  by destruct (exit_request ops2), (exit_request ops1).
Qed.

Lemma quiet_frees_number ops : quiet ops → frees_number ops = O.
Proof. induction 1 as [|[] ops Hop Hops IH]; done. Qed.

Lemma quiet_tame func ops : quiet ops → tame func ops.
Proof.
  intros Hquiet. split.
  - eapply Forall_impl; [done|]. by intros [].
  - rewrite quiet_frees_number by done. lia.
Qed.

Lemma quiet_frees ops : quiet ops → frees ops = false.
Proof. induction 1 as [|[] ops Hop Hops IH]; done. Qed.

Lemma run_ops_quiet fuel ops st p r :
  interrupt_pipe st = Some p →
  nih_main_loop_functions st = Some r →
  quiet ops →
  (pending p + writes ops ≤ capacity p)%nat →
  ∃ st',
    run_ops (S fuel) ops st = Ret st'
    ∧ interrupt_pipe st' = Some (mkPipe (pending p + writes ops) (capacity p))
    ∧ nih_main_loop_functions st' = Some r
    ∧ exit_state st' = exit_after ops (exit_state st)
    ∧ trace st' = trace st ++ events ops.
Proof.
  intros Hp Hr Hquiet Hroom. eexists. split.
  - apply (run_ops_tame O fuel ops st p r);
      [done | done | by apply quiet_tame | | done].
    by rewrite quiet_frees.
  - unfold after_ops, exit_state, exit_after. simpl.
    rewrite quiet_frees by done. by destruct (exit_request ops).
Qed.

Lemma run_loop_functions_tame fuel st p r :
  interrupt_pipe st = Some p →
  nih_main_loop_functions st = Some r →
  NoDup (handle <$> entries r) →
  Forall (λ f, tame (handle f) (script f)) (entries r) →
  (pending p + writes (all_ops (entries r)) ≤ capacity p)%nat →
  (length (entries r) < fuel)%nat →
  ∃ st',
    run_loop_functions fuel st = Ret st'
    ∧ interrupt_pipe st'
      = Some (mkPipe (pending p + writes (all_ops (entries r))) (capacity p))
    ∧ nih_main_loop_functions st'
      = Some (mkRegistry (survivors (entries r)) [])
    ∧ exit_state st' = exit_after (all_ops (entries r)) (exit_state st)
    ∧ trace st' = trace st ++ pass_events (entries r).
Proof.
  intros Hp Hr Hnodup Htame Hroom Hfuel. eexists. split.
  - unfold run_loop_functions, registry. rewrite Hr. simpl.
    apply (foreach_safe_tame (entries r) fuel _ p (mkRegistry [] (entries r)));
      done.
  - unfold after_pass, exit_state, exit_after. simpl.
    by destruct (exit_request (all_ops (entries r))).
Qed.

Lemma read_all_fields n st :
  interrupt_pipe (read_all n st) = interrupt_pipe st
  ∧ nih_main_loop_functions (read_all n st) = nih_main_loop_functions st
  ∧ exit_state (read_all n st) = exit_state st.
Proof.
  revert st. induction n as [|n IH]; intros st; simpl; [done|].
  by destruct (IH (log (Read 1) st)) as (-> & -> & ->).
Qed.

Lemma drain_tame st p r :
  interrupt_pipe st = Some p →
  nih_main_loop_functions st = Some r →
  interrupt_pipe (drain st) = Some (mkPipe 0 (capacity p))
  ∧ nih_main_loop_functions (drain st) = Some r
  ∧ exit_state (drain st) = exit_state st
  ∧ trace (drain st) = trace st ++ replicate (pending p) (Read 1) ++ [Read (-1)].
Proof.
  intros Hp Hr. unfold drain. rewrite Hp.
  destruct (read_all_fields (pending p)
              (set_pipe (Some (mkPipe 0 (capacity p))) st)) as (-> & -> & ->).
  repeat split; try done.
  apply (read_all_follows (pending p) (set_pipe _ st)).
Qed.

(** An iteration runs to its end when the clock can be read, the
    handlers and the callbacks are well behaved, and the pipe has room
    for the bytes written before it is read and for those written
    after. *)
Lemma iteration_runs fuel w st p r :
  interrupt_pipe st = Some p →
  nih_main_loop_functions st = Some r →
  well_behaved w (entries r) →
  (pending p + writes (io_ops w) ≤ capacity p)%nat →
  (writes (later_ops w (entries r)) ≤ capacity p)%nat →
  (length (entries r) < fuel)%nat →
  ∃ st',
    iteration fuel w st = Ret st'
    ∧ exit_state st' = exit_after (iteration_ops w (entries r)) (exit_state st)
    ∧ trace st' = trace st ++ iteration_events w (pending p) (entries r)
    ∧ interrupt_pipe st'
      = Some (mkPipe (writes (later_ops w (entries r))) (capacity p))
    ∧ nih_main_loop_functions st'
      = Some (mkRegistry (survivors (entries r)) []).
Proof.
  intros Hp Hr (Hclock & Hio & Hsig & Hchild & Htimer & Hnodup & Htame)
    Hroom Hlater Hfuel.
  unfold iteration_ops in *.
  assert (Hafter : (writes (signal_handlers w) + writes (child_handlers w)
                    + writes (timer_handlers w) + writes (all_ops (entries r))
                    ≤ capacity p)%nat).
  { unfold later_ops in Hlater. rewrite !writes_app in Hlater. lia. }
  destruct fuel as [|fuel]; [lia|].
  unfold iteration.
  pose (now := default 0 (clock w)).
  set (st0 := match next_timer w with
              | Some _ => log ClockGettime st
              | None => st
              end).
  assert (Hwait : match next_timer w with
                  | Some _ =>
                      _ ← nih_assert (bool_decide (is_Some (clock w)));
                      Ret (default 0 (clock w), log ClockGettime st)
                  | None => Ret (0, st)
                  end = Ret (match next_timer w with
                             | Some _ => now
                             | None => 0
                             end, st0)).
  { unfold st0, now. destruct (next_timer w); [|done].
    rewrite bool_decide_eq_true_2 by eauto. done. }
  rewrite Hwait. clear Hwait. simpl.
  assert (Hsel : select_timeout (next_timer w)
                   (match next_timer w with Some _ => now | None => 0 end)
                 = select_timeout (next_timer w) now)
    by by destruct (next_timer w).
  rewrite Hsel. clear Hsel.
  set (st1 := log (Select _) st0).
  assert (Hp1 : interrupt_pipe st1 = Some p)
    by (unfold st1, st0; by destruct (next_timer w)).
  assert (Hr1 : nih_main_loop_functions st1 = Some r)
    by (unfold st1, st0; by destruct (next_timer w)).
  assert (He1 : exit_state st1 = exit_state st)
    by (unfold st1, st0; by destruct (next_timer w)).
  assert (Ht1 : trace st1 = trace st
            ++ match next_timer w with Some _ => [ClockGettime] | None => [] end
            ++ [Select (select_timeout (next_timer w) now)]).
  { unfold st1, st0. destruct (next_timer w); simpl; by rewrite <- ?app_assoc. }
  clearbody st1. clear st0.
  assert (Hstage : ∃ st2,
            (if select_ret w >? 0
             then run_ops (S fuel) (io_handlers w) (log IoHandleFds st1)
             else Ret st1) = Ret st2
            ∧ interrupt_pipe st2
              = Some (mkPipe (pending p + writes (io_ops w)) (capacity p))
            ∧ nih_main_loop_functions st2 = Some r
            ∧ exit_state st2 = exit_after (io_ops w) (exit_state st1)
            ∧ trace st2 = trace st1
                ++ if select_ret w >? 0
                   then IoHandleFds :: events (io_handlers w) else []).
  { unfold io_ops in *. destruct (select_ret w >? 0).
    - destruct (run_ops_quiet fuel (io_handlers w) (log IoHandleFds st1) p r)
        as (st2 & -> & ? & ? & ? & Ht); [done|done|done|lia|].
      exists st2. repeat split; try done.
      rewrite Ht. simpl. by rewrite <- app_assoc.
    - exists st1. simpl. rewrite Nat.add_0_r, app_nil_r.
      repeat split; try done. by destruct p. }
  destruct Hstage as (st2 & -> & Hp2 & Hr2 & He2 & Ht2). simpl.
  destruct (drain_tame st2 _ r Hp2 Hr2) as (Hp3 & Hr3 & He3 & Ht3).
  simpl in Hp3, Ht3.
  destruct (run_ops_quiet fuel (signal_handlers w) (log SignalPoll (drain st2))
              _ r Hp3 Hr3 Hsig) as (st4 & -> & Hp4 & Hr4 & He4 & Ht4);
    [simpl; lia|]. simpl in *.
  destruct (run_ops_quiet fuel (child_handlers w) (log ChildPoll st4)
              _ r Hp4 Hr4 Hchild) as (st5 & -> & Hp5 & Hr5 & He5 & Ht5);
    [simpl; lia|]. simpl in *.
  destruct (run_ops_quiet fuel (timer_handlers w) (log TimerPoll st5)
              _ r Hp5 Hr5 Htimer) as (st6 & -> & Hp6 & Hr6 & He6 & Ht6);
    [simpl; lia|]. simpl in *.
  destruct (run_loop_functions_tame (S fuel) st6 _ r Hp6 Hr6 Hnodup Htame)
    as (st7 & -> & Hp7 & Hr7 & He7 & Ht7); [simpl; lia|done|].
  simpl in *. exists st7. split; [done|].
  split; [|split; [|split; [|done]]].
  3:{ rewrite Hp7. unfold later_ops. rewrite !writes_app.
      do 2 f_equal. lia. }
  - change (exit_state (log TimerPoll st5)) with (exit_state st5) in He6.
    change (exit_state (log ChildPoll st4)) with (exit_state st4) in He5.
    change (exit_state (log SignalPoll (drain st2)))
      with (exit_state (drain st2)) in He4.
    rewrite He7, He6, He5, He4, He3, He2, He1.
    by rewrite !exit_after_app.
  - rewrite Ht7, Ht6, Ht5, Ht4, Ht3, Ht2, Ht1. unfold iteration_events.
    fold now. rewrite <- !app_assoc. simpl.
    by destruct (select_ret w >? 0); simpl; rewrite <- ?app_assoc.
Qed.


(** *** The steps of an iteration, whatever is called *)





(** A step that leaves the pipe alone. *)
Lemma pumps_idle st st' l :
  follows st st' l → steps l = [] → written l = O →
  interrupt_pipe st' = interrupt_pipe st →
  pumps st st' l.
Proof.
  intros Hl El Wl Hpipe. split; [done|]. split; [done|].
  intros [n c] Hp. rewrite Hpipe, Hp, Wl. simpl. by rewrite Nat.add_0_r.
Qed.

Ltac idle l :=
  exists l; apply pumps_idle;
  [unfold follows; simpl; rewrite ?app_nil_r; reflexivity
  |reflexivity|reflexivity|reflexivity].

















(** C3, as the code has it.  Whatever the handlers and the callbacks
    call: when an iteration that started with the exit flag clear runs to
    its end and the last call of [nih_main_loop_exit] made during it was
    with [status], all the steps of the iteration have run, in their
    order, and [nih_main_loop] then returns [status].  The iteration does
    run to its end, all the loop functions included, when the handlers
    and the callbacks are well behaved and the interrupt pipe has room
    for the bytes written before it is read and for those written after.
    On return the exit flag is clear again, so that the next call of
    [nih_main_loop] runs; the stored exit status is not reset and still
    holds [status]. *)
Theorem exit_request_returns_after_iteration (fuel : nat)
    (used : list Wakeup) (w : Wakeup) (unused : list Wakeup)
    (st st_k : State) :
  reaches fuel used (log SetHandler (nih_main_loop_init st)) st_k →
  exit_loop st_k = 0 →
  (∀ st_end l status,
     iteration fuel w st_k = Ret st_end →
     trace st_end = trace st_k ++ l →
     last (requests l) = Some status →
     dispatch_order w (steps l)
     ∧ ∃ st',
         nih_main_loop fuel (used ++ w :: unused) st = Ret (status, st')
         ∧ trace st' = trace st_end
         ∧ exit_loop st' = 0
         ∧ exit_status st' = status)
  ∧ (∀ p r status,
       interrupt_pipe st_k = Some p →
       nih_main_loop_functions st_k = Some r →
       well_behaved w (entries r) →
       (pending p + writes (io_ops w) ≤ capacity p)%nat →
       (writes (later_ops w (entries r)) ≤ capacity p)%nat →
       (length (entries r) < fuel)%nat →
       exit_request (iteration_ops w (entries r)) = Some status →
       ∃ st_end st',
         iteration fuel w st_k = Ret st_end
         ∧ trace st_end
           = trace st_k ++ iteration_events w (pending p) (entries r)
         ∧ nih_main_loop fuel (used ++ w :: unused) st = Ret (status, st')
         ∧ trace st' = trace st_end
         ∧ exit_loop st' = 0
         ∧ exit_status st' = status).
Proof.
  intros Hreach Hzero.
  assert (Hreturns : ∀ st_end status,
            iteration fuel w st_k = Ret st_end →
            exit_state st_end = (1, status) →
            nih_main_loop fuel (used ++ w :: unused) st
            = Ret (status, set_exit_loop 0 st_end)).
  { intros st_end status Hrun [= Hloop Hstatus]. unfold nih_main_loop.
    rewrite (reaches_iterate fuel used (w :: unused) _ st_k Hreach). simpl.
    destruct (decide (exit_loop st_k = 0)); [|done].
    rewrite Hrun. simpl. rewrite iterate_exit by lia. simpl.
    by rewrite Hstatus. }
  split.
  - intros st_end l status Hrun Htrace Hlast.
    destruct (iteration_steps fuel w st_k st_end Hrun) as (l1 & Hl1 & Horder).
    destruct (iteration_evolves fuel w st_k st_end Hrun)
      as (l2 & Hl2 & Hstate & _).
    unfold follows in Hl1, Hl2.
    assert (l1 = l) as -> by (apply (app_inv_head (trace st_k)); congruence).
    assert (l2 = l) as -> by (apply (app_inv_head (trace st_k)); congruence).
    split; [exact Horder|].
    unfold exit_track in Hstate. rewrite Hlast in Hstate.
    exists (set_exit_loop 0 st_end).
    split; [by apply Hreturns|]. split; [done|]. split; [done|].
    injection Hstate as _ Hstatus. exact Hstatus.
  - intros p r status Hp Hr Hwell Hroom Hlater Hfuel Hexit.
    destruct (iteration_runs fuel w st_k p r Hp Hr Hwell Hroom Hlater Hfuel)
      as (st_end & Hrun & Hstate & Htrace & _).
    unfold exit_after in Hstate. rewrite Hexit in Hstate.
    exists st_end, (set_exit_loop 0 st_end).
    split; [done|]. split; [done|].
    split; [by apply Hreturns|]. split; [done|]. split; [done|].
    injection Hstate as _ Hstatus. exact Hstatus.
Qed.

(** *** A run *)

Example run_ready :
  nih_main_loop 10 [ready; idle] (registered three) = Ret (7, finished).
Proof. vm_compute. reflexivity. Qed.

Example register_three : register three (start 16) = Ret (registered three).
Proof. vm_compute. reflexivity. Qed.

(** C1 as stated fails: with the next timer due at 5 and the clock at 10
    the timeout given to [select] is -5 seconds, not 0. *)
Lemma select_timeout_negative :
  nih_main_loop 10 [late; idle] (registered three) = Ret (7, finished_late)
  ∧ selects (trace finished_late) = [Some (mkTimeval (-5) 0)]
  ∧ mkTimeval (-5) 0 ≠ mkTimeval (Z.max 0 (5 - 10)) 0.
Proof. split; [|split]; [vm_compute; reflexivity | reflexivity | done]. Qed.

Lemma select_timeout_of_each_iteration_witness :
  (∃ timeouts,
     selects (trace leaving_late) = selects (trace (registered three)) ++ timeouts
     ∧ Forall2 waits_for [late] timeouts)
  ∧ (exit_loop leaving_late ≠ 0 →
     ∀ unused, ∃ st',
       nih_main_loop 10 ([late] ++ unused) (registered three)
       = Ret (exit_status leaving_late, st')
       ∧ trace st' = trace leaving_late).
Proof.
  apply (select_timeout_of_each_iteration 10 [late] (registered three)
           leaving_late).
  split; [reflexivity|]. exists leaving_late.
  split; [vm_compute; reflexivity | reflexivity].
Defined.




(** C3 as stated fails: after [nih_main_loop] has returned 7 the stored
    exit status is still 7, not the default 0; only the exit flag is
    reset. *)
Lemma exit_status_not_reset :
  nih_main_loop 10 [ready; idle] (registered three) = Ret (7, finished)
  ∧ exit_loop finished = 0
  ∧ exit_status finished = 7
  ∧ exit_status finished ≠ exit_status (start 16).
Proof. split; [vm_compute; reflexivity | done]. Qed.

Lemma exit_request_returns_after_iteration_witness :
  (dispatch_order reaped
     (steps [Select None; Read (-1); SignalPoll; ChildPoll; ExitRequest 4;
             Write 1; TimerPoll; Callback 12 3])
   ∧ ∃ st',
       nih_main_loop 10 ([] ++ reaped :: [late]) (registered two)
       = Ret (4, st')
       ∧ trace st' = trace after_reaped
       ∧ exit_loop st' = 0
       ∧ exit_status st' = 4)
  ∧ (∃ st_end st',
       iteration 10 term after_idle = Ret st_end
       ∧ trace st_end
         = trace after_idle
           ++ [ClockGettime; Select (Some (mkTimeval 18 0)); Read (-1);
               SignalPoll; ExitRequest 3; Write 1; ChildPoll; TimerPoll;
               Write 1; Callback 12 3]
       ∧ nih_main_loop 10 ([idle] ++ term :: [late]) (registered two)
         = Ret (3, st')
       ∧ trace st' = trace st_end
       ∧ exit_loop st' = 0
       ∧ exit_status st' = 3).
Proof.
  split.
  - apply (proj1 (exit_request_returns_after_iteration 10 [] reaped [late]
                    (registered two) set_up eq_refl eq_refl) after_reaped
             [Select None; Read (-1); SignalPoll; ChildPoll; ExitRequest 4;
              Write 1; TimerPoll; Callback 12 3] 4);
      vm_compute; reflexivity.
  - assert (Hreach : reaches 10 [idle]
                       (log SetHandler (nih_main_loop_init (registered two)))
                       after_idle).
    { split; [reflexivity|]. exists after_idle.
      split; [vm_compute; reflexivity | reflexivity]. }
    apply (proj2 (exit_request_returns_after_iteration 10 [idle] term [late]
                    (registered two) after_idle Hreach eq_refl) (mkPipe 0 16)
             (mkRegistry [mkFunc 12 quiet_cb 3] []) 3).
    + reflexivity.
    + reflexivity.
    + split; [simpl; eauto|]. repeat split; repeat constructor.
      apply (bool_decide_unpack _). vm_compute. exact I.
    + vm_compute. lia.
    + vm_compute. lia.
    + simpl. lia.
    + reflexivity.
Defined.

(** *** Runs with arbitrary handlers and callbacks *)

(** X12: after a request to exit made while no loop runs,
    [nih_main_loop] returns the status of the request at once: it waits
    for nothing and dispatches nothing, and the byte the request wrote to
    the interrupt pipe stays there. *)
Theorem exit_before_loop (fuel fuel' : nat) (ws : list Wakeup) (status : Z)
    (st : State) (p : Pipe_buffer) :
  initialised st →
  interrupt_pipe st = Some p →
  (pending p < capacity p)%nat →
  ∃ st1 st2,
    nih_main_loop_exit (S fuel) status st = Ret st1
    ∧ nih_main_loop fuel' ws st1 = Ret (status, st2)
    ∧ trace st2 = trace st ++ [ExitRequest status; Write 1; SetHandler]
    ∧ interrupt_pipe st2 = Some (mkPipe (S (pending p)) (capacity p))
    ∧ exit_loop st2 = 0.
Proof.
  intros Hinit Hp Hroom. unfold nih_main_loop_exit.
  rewrite (interrupt_room fuel _ p); [|by destruct Hinit|done|done].
  eexists _, _. split; [reflexivity|].
  unfold nih_main_loop. rewrite init_idem by (by destruct Hinit).
  rewrite iterate_exit by done.
  split; [reflexivity|]. simpl. by rewrite <- !app_assoc.
Qed.

Lemma exit_before_loop_witness :
  ∃ st1 st2,
    nih_main_loop_exit 1 3 (registered three) = Ret st1
    ∧ nih_main_loop 10 [ready; idle] st1 = Ret (3, st2)
    ∧ trace st2 = trace (registered three)
                  ++ [ExitRequest 3; Write 1; SetHandler]
    ∧ interrupt_pipe st2 = Some (mkPipe 1 16)
    ∧ exit_loop st2 = 0.
Proof.
  apply (exit_before_loop 0 10 [ready; idle] 3 (registered three)
           (mkPipe 0 16)).
  - split; eauto.
  - reflexivity.
  - simpl. lia.
Defined.

(** X13: whatever the handlers and the callbacks call, a run of
    [nih_main_loop] that started with the exit flag clear returns only
    after a request to exit, and what it returns is the status of the last
    request made. *)
Theorem loop_returns_last_request (fuel : nat) (ws : list Wakeup)
    (st st' : State) (status : Z) :
  exit_loop st = 0 →
  nih_main_loop fuel ws st = Ret (status, st') →
  ∃ l, follows st st' l ∧ last (requests l) = Some status.
Proof.
  intros Hzero Hrun.
  apply main_loop_evolves in Hrun
    as (st_end & (l & Hl & Hexit & _) & Hset & -> & -> & _).
  exists l. split; [exact Hl|].
  unfold exit_track, exit_state in Hexit.
  destruct (last (requests l)) as [s|].
  - by injection Hexit as _ ->.
  - injection Hexit as Hloop _. congruence.
Qed.

Lemma loop_returns_last_request_witness :
  ∃ l, follows (registered three) finished l ∧ last (requests l) = Some 7.
Proof.
  apply (loop_returns_last_request 10 [ready; idle] (registered three)
           finished 7).
  - reflexivity.
  - vm_compute. reflexivity.
Defined.

(** X14: whatever the handlers and the callbacks call, a run of
    [nih_main_loop] that returns has called [pipe] once when the process
    had no interrupt pipe and not at all when it had one, and leaves the
    process with the pipe. *)
Theorem loop_creates_pipe_once (fuel : nat) (ws : list Wakeup)
    (st st' : State) (status : Z) :
  nih_main_loop fuel ws st = Ret (status, st') →
  ∃ l, follows st st' l
       ∧ is_Some (interrupt_pipe st')
       ∧ pipes l = match interrupt_pipe st with Some _ => 0 | None => 1 end%nat.
Proof.
  intros Hrun.
  apply main_loop_evolves in Hrun
    as (st_end & (l & Hl & _ & Hpipes) & _ & _ & -> & Hcreated).
  exists l. split; [exact Hl|]. unfold created in *. simpl.
  destruct (interrupt_pipe st_end); [|done]. split; [eauto|].
  destruct (interrupt_pipe st); lia.
Qed.

Lemma loop_creates_pipe_once_witness :
  ∃ l, follows (registered three) finished l
       ∧ is_Some (interrupt_pipe finished)
       ∧ pipes l = 0%nat.
Proof.
  apply (loop_creates_pipe_once 10 [ready; idle] (registered three)
           finished 7).
  vm_compute. reflexivity.
Defined.

(** *** The bytes left in the interrupt pipe *)



End LoopSpec.
